(** * NetLSD: heat kernel trace embedding of graphs

    A shallow embedding of [karateclub/graph_embedding/netlsd.py].

    Conventions of the embedding.
    - A NumPy [float64] array is a [list R]: floating point numbers are
      idealised as real numbers, so rounding, overflow and [nan] are
      outside the model.  One effect of [float64] is kept: [np.exp]
      underflows to [0.0].
    - Python integers ([scale_steps], [approximations]) are [Z]; array
      lengths and [mat.shape[0]] are [nat].
    - A Python call that may raise returns a [result]; the exception is
      kept as a value of [exn].
    - The eigensolver [scipy.sparse.linalg.eigsh] is an external
      collaborator: the functions that call it take it as a parameter.
    - A NetworkX graph is a mutable object; a function that receives one
      returns the graph as it is left after the call.  A sequence of
      graphs is the list of their values, as for distinct objects: one
      object listed twice is not expressed. *)

From Stdlib Require Import String.
From Stdlib Require Import Reals Lra Lia ZArith List Bool Arith.
From Stdlib Require Import Permutation Sorted.
Import ListNotations.

Open Scope R_scope.

(** ** Exceptions and fallible computations *)

Inductive exn : Type :=
| AttributeError (name : string)
| ValueError (msg : string)
| IndexError (msg : string)
| NetworkXError (msg : string)
| ArpackNoConvergence.

Inductive result (A : Type) : Type :=
| Ok (a : A)
| Raise (e : exn).

Arguments Ok {A} a.
Arguments Raise {A} e.

Definition bind {A B : Type} (m : result A) (f : A -> result B) : result B :=
  match m with
  | Ok a => f a
  | Raise e => Raise e
  end.

Notation "x <- m ;; k" := (bind m (fun x => k))
  (at level 61, m at next level, right associativity).

(** ** NumPy primitives *)

Module np.

(** [np.zeros(n)] *)
Definition zeros (n : nat) : list R := repeat 0 n.

(** [np.sum(a)] *)
Definition sum (a : list R) : R := fold_right Rplus 0 a.

(** [np.linspace(start, stop, num)] with the default [endpoint=True]:
    [num] evenly spaced samples, the step being [(stop - start) / (num - 1)].
    A negative [num] raises [ValueError]. *)
Definition linspace (start stop : R) (num : Z) : result (list R) :=
  if (num <? 0)%Z then
    Raise (ValueError "Number of samples must be non-negative.")
  else
    let step := (stop - start) / (IZR num - 1) in
    Ok (map (fun i => start + INR i * step) (seq 0 (Z.to_nat num))).

(** [np.logspace(start, stop, num)] with the default base 10:
    [10 ** linspace(start, stop, num)]. *)
Definition logspace (start stop : R) (num : Z) : result (list R) :=
  y <- linspace start stop num ;;
  Ok (map (Rpower 10) y).

(** Resolution of one bound of a slice [a[i:j]] against the length of
    the array, as Python's [slice.indices] does for step 1: a negative
    bound counts from the end and every bound is clipped to [0, len]. *)
Definition clip (len i : Z) : Z :=
  if (i <? 0)%Z then Z.max 0 (i + len) else Z.min i len.

Definition slice_bounds (start stop : option Z) (len : nat) : nat * nat :=
  let l := Z.of_nat len in
  let lo := match start with None => 0%Z | Some i => clip l i end in
  let hi := match stop with None => l | Some i => clip l i end in
  (Z.to_nat lo, Z.to_nat hi).

(** [a[start:stop] = vals] on a one-dimensional array.  The slice has
    [hi - lo] slots ([0] when [hi <= lo]); [vals] must have that many
    entries or exactly one entry (which is then broadcast), otherwise
    NumPy raises [ValueError]. *)
Definition setslice (a : list R) (start stop : option Z) (vals : list R)
  : result (list R) :=
  let '(lo, hi) := slice_bounds start stop (length a) in
  let m := (hi - lo)%nat in
  if (length vals =? m)%nat then
    Ok (firstn lo a ++ vals ++ skipn (lo + m) a)
  else if (length vals =? 1)%nat then
    Ok (firstn lo a ++ repeat (hd 0 vals) m ++ skipn (lo + m) a)
  else
    Raise (ValueError "could not broadcast input array").

(** [a[idx] = v] for an index counted from the start; an index past
    the end raises [IndexError]. *)
Definition setitem (a : list R) (idx : nat) (v : R) : result (list R) :=
  if (idx <? length a)%nat then Ok (firstn idx a ++ v :: skipn (S idx) a)
  else Raise (IndexError "index is out of bounds").

(** [enumerate(a)] *)
Definition enumerate (a : list R) : list (nat * R) :=
  combine (seq 0 (length a)) a.

(** [a[-1]] and [a[0]] on a one-dimensional array. *)
Definition item_last (a : list R) : result R :=
  match a with
  | [] => Raise (IndexError "index -1 is out of bounds")
  | _ => Ok (last a 0)
  end.

Definition item_first (a : list R) : result R :=
  match a with
  | [] => Raise (IndexError "index 0 is out of bounds")
  | x :: _ => Ok x
  end.

(** The argument at and below which [np.exp] gives [0.0]: there [e^x]
    is at most [2^-1075], half the smallest positive [float64], and is
    rounded to zero. *)
Definition underflow : R := - (1075 * ln 2).

(** [np.exp(x)] on a [float64]: the exponential, rounded to [0.0] when
    it underflows. *)
Definition exp (x : R) : R :=
  if Rle_dec x underflow then 0 else Rtrigo_def.exp x.

End np.

(** ** The estimator object *)

(** The attributes of a [NetLSD] instance.  [_embedding] is absent until
    [fit] assigns it; [None] stands for the missing attribute. *)
Record NetLSD : Type := mkNetLSD {
  scale_min : R;
  scale_max : R;
  scale_steps : Z;
  approximations : Z;
  _embedding : option (list (list R))
}.

(** [NetLSD.__init__]: four attribute assignments and nothing else. *)
Definition __init__ (scale_min scale_max : R) (scale_steps approximations : Z)
  : result NetLSD :=
  Ok {| scale_min := scale_min;
        scale_max := scale_max;
        scale_steps := scale_steps;
        approximations := approximations;
        _embedding := None |}.

(** ** Heat kernel trace *)

(** The loop of [_calculate_heat_kernel_trace]: for each [(idx, t)] the
    slot [idx] receives [np.sum(np.exp(-t * eivals))]. *)
Fixpoint heat_kernel_loop (eivals : list R) (items : list (nat * R))
  (heat_kernel_trace : list R) : result (list R) :=
  match items with
  | [] => Ok heat_kernel_trace
  | (idx, t) :: rest =>
    heat_kernel_trace <-
      np.setitem heat_kernel_trace idx
        (np.sum (map (fun ev => np.exp (- t * ev)) eivals)) ;;
    heat_kernel_loop eivals rest heat_kernel_trace
  end.

(** [_calculate_heat_kernel_trace]: the grid, a zero array of its shape
    filled by the loop, and the division of the whole array by
    [nodes = eivals.shape[0]]. *)
Definition _calculate_heat_kernel_trace (self : NetLSD) (eivals : list R)
  : result (list R) :=
  timescales <- np.logspace (scale_min self) (scale_max self) (scale_steps self) ;;
  let nodes := length eivals in
  let heat_kernel_trace := np.zeros (length timescales) in
  heat_kernel_trace <-
    heat_kernel_loop eivals (np.enumerate timescales) heat_kernel_trace ;;
  Ok (map (fun x => x / INR nodes) heat_kernel_trace).

(** ** Band interpolation *)

(** [_updown_linear_approx]: three slice assignments on a zero array. *)
Definition _updown_linear_approx (eigvals_lower eigvals_upper : list R) (nv : nat)
  : result (list R) :=
  let nal := Z.of_nat (length eigvals_lower) in
  let nau := Z.of_nat (length eigvals_upper) in
  let ret := np.zeros nv in
  ret <- np.setslice ret None (Some nal) eigvals_lower ;;
  ret <- np.setslice ret (Some (- nau)%Z) None eigvals_upper ;;
  lo <- np.item_last eigvals_lower ;;
  up <- np.item_first eigvals_upper ;;
  mid <- np.linspace lo up (Z.of_nat nv - nal - nau + 2)%Z ;;
  np.setslice ret (Some (nal - 1)%Z) (Some (- nau + 1)%Z) mid.

(** ** Graphs and the normalized Laplacian *)

(** A NetworkX [Graph] whose nodes are [0 .. number_of_nodes - 1] (the
    labelling [nodelist = range(graph.number_of_nodes())] asks for) and
    whose undirected edges are listed as pairs, in either orientation. *)
Record Graph : Type := mkGraph {
  number_of_nodes : nat;
  edges : list (nat * nat)
}.

Module nx.

Definition is_selfloop (e : nat * nat) : bool := (fst e =? snd e)%nat.

(** The pairs [(u, v)] and [(v, u)] name one undirected edge. *)
Definition same_edge (e f : nat * nat) : bool :=
  ((fst e =? fst f)%nat && (snd e =? snd f)%nat)
  || ((fst e =? snd f)%nat && (snd e =? fst f)%nat).

(** [nx.selfloop_edges(graph)] *)
Definition selfloop_edges (g : Graph) : list (nat * nat) :=
  filter is_selfloop (edges g).

(** [graph.remove_edges_from(ebunch)]: the graph object itself loses
    every edge of [ebunch]; its nodes stay. *)
Definition remove_edges_from (g : Graph) (ebunch : list (nat * nat)) : Graph :=
  {| number_of_nodes := number_of_nodes g;
     edges := filter (fun e => negb (existsb (same_edge e) ebunch)) (edges g) |}.

Definition has_edge (g : Graph) (i j : nat) : bool :=
  existsb (same_edge (i, j)) (edges g).

(** Row sum of the adjacency matrix over the node list. *)
Definition degree (g : Graph) (i : nat) : nat :=
  length (filter (has_edge g i) (seq 0 (number_of_nodes g))).

End nx.

(** A sparse matrix is read through its row count ([mat.shape[0]]) and
    its entries. *)
Record coo_matrix : Type := mkMatrix {
  shape0 : nat;
  coeff : nat -> nat -> R
}.

Module nxla.

(** [nx.normalized_laplacian_matrix(graph, nodelist=range(n))]:
    [DH @ (L @ DH)] with [L = D - A], [D] the diagonal of row sums of the
    adjacency matrix [A] and [DH] the diagonal of [1 / sqrt(diags)], an
    infinite entry (row sum 0) being replaced by 0.  The conversion to a
    sparse matrix refuses a graph without nodes. *)
Definition normalized_laplacian_matrix (g : Graph) : result coo_matrix :=
  let n := number_of_nodes g in
  if (n =? 0)%nat then Raise (NetworkXError "Graph has no nodes or edges")
  else
    let A i j := if nx.has_edge g i j then 1 else 0 in
    let diags i := INR (nx.degree g i) in
    let L i j := (if (i =? j)%nat then diags i else 0) - A i j in
    let diags_sqrt i :=
      if (nx.degree g i =? 0)%nat then 0 else 1 / sqrt (diags i) in
    Ok {| shape0 := n;
          coeff := fun i j => diags_sqrt i * (L i j * diags_sqrt j) |}.

End nxla.

(** ** The eigensolver interface *)

(** The arguments of [scipy.sparse.linalg.eigsh] the program varies:
    which end of the spectrum and which mode. *)
Inductive Which : Type := SM | LM.
Inductive Mode : Type := normal | cayley.

(** [eigsh(mat, k, which=..., return_eigenvectors=False, mode=...)] *)
Definition Eigsh : Type := coo_matrix -> Z -> Which -> Mode -> result (list R).

(** ** The pipeline *)

Section Pipeline.

Variable eigsh : Eigsh.

(** [_calculate_eigenvalues]: two bands and an interpolation when
    [2 * approximations + 2 < nv], one solver call for [nv - 1] values
    otherwise.  [[::-1]] reverses the lower band. *)
Definition _calculate_eigenvalues (self : NetLSD) (mat : coo_matrix)
  : result (list R) :=
  let nv := shape0 mat in
  if (2 * approximations self + 2 <? Z.of_nat nv)%Z then
    lo <- eigsh mat (approximations self) SM cayley ;;
    let lo_eivals := rev lo in
    up_eivals <- eigsh mat (approximations self) LM cayley ;;
    _updown_linear_approx lo_eivals up_eivals nv
  else
    eigsh mat (Z.of_nat nv - 1)%Z SM normal.

(** [_calculate_netlsd]: the first statement edits the caller's graph
    object, so the graph is returned with the result. *)
Definition _calculate_netlsd (self : NetLSD) (graph : Graph)
  : Graph * result (list R) :=
  let graph := nx.remove_edges_from graph (nx.selfloop_edges graph) in
  (graph,
   normalized_laplacian <- nxla.normalized_laplacian_matrix graph ;;
   eigen_values <- _calculate_eigenvalues self normalized_laplacian ;;
   _calculate_heat_kernel_trace self eigen_values).

(** The list comprehension of [fit]: graphs are processed in order; an
    exception stops the comprehension, leaving the graphs visited so far
    edited.  The remaining entries are passed on as they are, which is
    right for objects that were not visited at an earlier position. *)
Fixpoint fit_rows (self : NetLSD) (graphs : list Graph)
  : list Graph * result (list (list R)) :=
  match graphs with
  | [] => ([], Ok [])
  | graph :: rest =>
    let '(graph', r) := _calculate_netlsd self graph in
    match r with
    | Raise e => (graph' :: rest, Raise e)
    | Ok row =>
      let '(rest', rs) := fit_rows self rest in
      (graph' :: rest', rows <- rs ;; Ok (row :: rows))
    end
  end.

(** [fit]: [self._embedding] is assigned only when the comprehension
    has finished. *)
Definition fit (self : NetLSD) (graphs : list Graph)
  : list Graph * result NetLSD :=
  let '(graphs', r) := fit_rows self graphs in
  (graphs',
   rows <- r ;;
   Ok {| scale_min := scale_min self;
         scale_max := scale_max self;
         scale_steps := scale_steps self;
         approximations := approximations self;
         _embedding := Some rows |}).

End Pipeline.

(** [get_embedding]: reading [self._embedding] raises [AttributeError]
    while the attribute is missing; [np.array] stacks the rows. *)
Definition get_embedding (self : NetLSD) : result (list (list R)) :=
  match _embedding self with
  | None => Raise (AttributeError "_embedding")
  | Some rows => Ok rows
  end.

(** ** Reference objects *)

(** The complete graph on three nodes, and the same graph with a
    self-loop at node 0. *)
Definition K3 : Graph :=
  {| number_of_nodes := 3; edges := [(0, 1); (0, 2); (1, 2)]%nat |}.

Definition K3_loop : Graph :=
  {| number_of_nodes := 3; edges := [(0, 0); (0, 1); (0, 2); (1, 2)]%nat |}.

(** Matrix-vector product over the first [shape0] indices, and what it
    means for [(lam, v)] to be an eigenpair of a matrix. *)
Definition matvec (mat : coo_matrix) (v : nat -> R) (i : nat) : R :=
  np.sum (map (fun j => coeff mat i j * v j) (seq 0 (shape0 mat))).

Definition is_eigenpair (mat : coo_matrix) (lam : R) (v : nat -> R) : Prop :=
  (exists i, (i < shape0 mat)%nat /\ v i <> 0) /\
  forall i, (i < shape0 mat)%nat -> matvec mat v i = lam * v i.


(** A stand-in for the external solver, after what [eigsh] does when
    no eigenvectors are requested: it serves [0 < k < n]; the [k] values
    of smallest magnitude ([SM]) come largest first, which is why the
    program reverses them for its lower band, and the [k] values of
    largest magnitude ([LM]) come smallest first.  The spectra are read
    from a table by the row count of the matrix; a matrix the table does
    not know makes the stand-in fail as ARPACK does without convergence. *)
Definition table_eigsh (spectrum : coo_matrix -> option (list R)) : Eigsh :=
  fun mat k which _ =>
    if ((0 <? k)%Z && (k <? Z.of_nat (shape0 mat))%Z)%bool then
      match spectrum mat with
      | None => Raise ArpackNoConvergence
      | Some values =>
        match which with
        | SM => Ok (rev (firstn (Z.to_nat k) values))
        | LM => Ok (skipn (length values - Z.to_nat k) values)
        end
      end
    else Raise (ValueError "k must be greater than 0 and less than n").


(** The solver calls the pipeline makes on a matrix return, the bands
    with as many values as were asked for. *)
Definition solver_serves
  (eigsh : Eigsh) (self : NetLSD) (mat : coo_matrix) : Prop :=
  if (2 * approximations self + 2 <? Z.of_nat (shape0 mat))%Z then
    exists lo up,
      eigsh mat (approximations self) SM cayley = Ok lo /\
      eigsh mat (approximations self) LM cayley = Ok up /\
      length lo = Z.to_nat (approximations self) /\
      length up = Z.to_nat (approximations self)
  else
    exists ev, eigsh mat (Z.of_nat (shape0 mat) - 1)%Z SM normal = Ok ev.

(** The complete graph on seven nodes. *)
Definition K7 : Graph :=
  {| number_of_nodes := 7;
     edges := [(0, 1); (0, 2); (0, 3); (0, 4); (0, 5); (0, 6);
               (1, 2); (1, 3); (1, 4); (1, 5); (1, 6);
               (2, 3); (2, 4); (2, 5); (2, 6);
               (3, 4); (3, 5); (3, 6);
               (4, 5); (4, 6);
               (5, 6)]%nat |}.

(** The tables of the stand-in for the Laplacians of [K3] and of [K7]:
    the complete graph on [n] nodes has the eigenvalues 0 and, [n - 1]
    times, [n / (n - 1)]. *)
Definition K3_spectrum (mat : coo_matrix) : option (list R) :=
  if (shape0 mat =? 3)%nat then Some [0; 3 / 2; 3 / 2] else None.

Definition K7_spectrum (mat : coo_matrix) : option (list R) :=
  if (shape0 mat =? 7)%nat then
    Some [0; 7 / 6; 7 / 6; 7 / 6; 7 / 6; 7 / 6; 7 / 6]
  else None.

(** The configuration of the concrete scenario: one time scale, [10^0]. *)
Definition unit_grid : NetLSD :=
  {| scale_min := 0; scale_max := 0; scale_steps := 1;
     approximations := 50; _embedding := None |}.

(** The estimator the constructor builds from its default arguments. *)
Definition defaults : NetLSD :=
  {| scale_min := -2; scale_max := 2; scale_steps := 250;
     approximations := 50; _embedding := None |}.

(** An estimator with bands of two values: a graph on seven nodes takes
    the approximate branch, [2 * 2 + 2 < 7]. *)
Definition band_estimator : NetLSD :=
  {| scale_min := -1; scale_max := 1; scale_steps := 3;
     approximations := 2; _embedding := None |}.


(** An estimator whose [scale_steps] is negative. *)
Definition negative_steps : NetLSD :=
  {| scale_min := -2; scale_max := 2; scale_steps := -1;
     approximations := 50; _embedding := None |}.

(** The matrix the Laplacian builder yields for [K3], spelled out; its
    entries are 1 on the diagonal and -1/2 elsewhere. *)
Definition K3_laplacian : coo_matrix :=
  {| shape0 := 3;
     coeff := fun i j =>
       (if (nx.degree K3 i =? 0)%nat then 0 else 1 / sqrt (INR (nx.degree K3 i)))
       * (((if (i =? j)%nat then INR (nx.degree K3 i) else 0)
           - (if nx.has_edge K3 i j then 1 else 0))
          * (if (nx.degree K3 j =? 0)%nat then 0
             else 1 / sqrt (INR (nx.degree K3 j)))) |}.

(** The [i]-th time scale of an estimator, and the sum the loop body of
    [_calculate_heat_kernel_trace] stores for a time scale [t]. *)
Definition timescale (self : NetLSD) (i : nat) : R :=
  Rpower 10 (scale_min self
             + INR i * ((scale_max self - scale_min self)
                        / (IZR (scale_steps self) - 1))).

Definition heat_sum (t : R) (eivals : list R) : R :=
  np.sum (map (fun ev => np.exp (- t * ev)) eivals).

(** * Properties *)

(** ** Results *)

Lemma bind_ok {A B : Type} (m : result A) (f : A -> result B) (b : B) :
  bind m f = Ok b -> exists a, m = Ok a /\ f a = Ok b.
Proof.
  destruct m as [a | e]; simpl; intros H.
  - exists a; split; [reflexivity | exact H].
  - discriminate H.
Qed.

(** ** Lists *)

Lemma nth_map_seq {A : Type} (f : nat -> A) (n i : nat) (d : A) :
  (i < n)%nat -> nth i (map f (seq 0 n)) d = f i.
Proof.
  intros Hi.
  rewrite (nth_indep _ d (f 0%nat)) by now rewrite length_map, length_seq.
  rewrite (map_nth f), seq_nth by exact Hi. reflexivity.
Qed.

(** ** The time-scale grid *)

Lemma linspace_ok (start stop : R) (num : Z) :
  (0 <= num)%Z ->
  np.linspace start stop num =
    Ok (map (fun i => start + INR i * ((stop - start) / (IZR num - 1)))
            (seq 0 (Z.to_nat num))).
Proof.
  intros Hnum. unfold np.linspace.
  destruct (Z.ltb_spec num 0) as [Hneg | _]; [lia | reflexivity].
Qed.

Lemma linspace_length (start stop : R) (num : Z) (y : list R) :
  np.linspace start stop num = Ok y -> length y = Z.to_nat num.
Proof.
  unfold np.linspace. destruct (num <? 0)%Z; [discriminate |].
  intros H; injection H as <-. now rewrite length_map, length_seq.
Qed.

Lemma linspace_nth (start stop : R) (num : Z) (y : list R) (i : nat) :
  np.linspace start stop num = Ok y ->
  (i < Z.to_nat num)%nat ->
  nth i y 0 = start + INR i * ((stop - start) / (IZR num - 1)).
Proof.
  unfold np.linspace. destruct (num <? 0)%Z; [discriminate |].
  intros H Hi; injection H as <-.
  now rewrite nth_map_seq.
Qed.

(** The first sample is [start] and, when there are at least two, the
    last one is [stop]. *)
Lemma linspace_first (start stop : R) (num : Z) (y : list R) :
  np.linspace start stop num = Ok y -> (0 < num)%Z -> nth 0 y 0 = start.
Proof.
  intros H Hnum. rewrite (linspace_nth _ _ _ _ _ H) by lia. simpl. lra.
Qed.

Lemma linspace_last (start stop : R) (num : Z) (y : list R) :
  np.linspace start stop num = Ok y -> (1 < num)%Z ->
  nth (Z.to_nat num - 1) y 0 = stop.
Proof.
  intros H Hnum. rewrite (linspace_nth _ _ _ _ _ H) by lia.
  rewrite minus_INR by lia. rewrite INR_IZR_INZ, Z2Nat.id by lia.
  simpl. assert (Hne : IZR num - 1 <> 0).
  { apply IZR_lt in Hnum. lra. }
  field. exact Hne.
Qed.

Lemma logspace_ok (start stop : R) (num : Z) :
  (0 <= num)%Z ->
  np.logspace start stop num =
    Ok (map (fun i => Rpower 10 (start + INR i * ((stop - start) / (IZR num - 1))))
            (seq 0 (Z.to_nat num))).
Proof.
  intros Hnum. unfold np.logspace. rewrite linspace_ok by exact Hnum.
  simpl. now rewrite map_map.
Qed.

Lemma logspace_raises (start stop : R) (num : Z) :
  (num < 0)%Z -> exists e, np.logspace start stop num = Raise e.
Proof.
  intros Hnum. unfold np.logspace, np.linspace.
  destruct (Z.ltb_spec num 0) as [_ | Hge]; [| lia].
  simpl. eexists; reflexivity.
Qed.

(** ** The heat kernel trace *)

Lemma length_zeros (n : nat) : length (np.zeros n) = n.
Proof. apply repeat_length. Qed.

(** The loop visits every slot once, in order: started on the zero
    array it ends with one heat sum per time scale. *)
Lemma heat_kernel_loop_from (eivals pre post : list R) :
  heat_kernel_loop eivals
    (combine (seq (length pre) (length post)) post)
    (map (fun t => heat_sum t eivals) pre ++ np.zeros (length post))
  = Ok (map (fun t => heat_sum t eivals) (pre ++ post)).
Proof.
  revert pre. induction post as [| t post IH]; intros pre.
  - simpl. now rewrite !app_nil_r.
  - cbn [length seq combine heat_kernel_loop]. unfold np.setitem.
    assert (Hlt : (length pre
                   <? length (map (fun t => heat_sum t eivals) pre
                              ++ np.zeros (S (length post))))%nat = true).
    { apply Nat.ltb_lt. rewrite length_app, length_map, length_zeros. lia. }
    rewrite Hlt. cbn [bind].
    assert (Hpre : length (map (fun t => heat_sum t eivals) pre) = length pre)
      by apply length_map.
    rewrite firstn_app, firstn_all2 by lia.
    replace (length pre - length (map (fun t => heat_sum t eivals) pre))%nat
      with 0%nat by lia.
    rewrite skipn_app, skipn_all2 by lia.
    replace (S (length pre) - length (map (fun t => heat_sum t eivals) pre))%nat
      with 1%nat by lia.
    cbn [firstn skipn np.zeros repeat app].
    specialize (IH (pre ++ [t])).
    rewrite length_app, map_app in IH. cbn [length map] in IH.
    rewrite Nat.add_1_r, <- !app_assoc in IH. cbn [app] in IH.
    rewrite app_nil_r. exact IH.
Qed.

Lemma heat_kernel_loop_ok (eivals timescales : list R) :
  heat_kernel_loop eivals (np.enumerate timescales)
    (np.zeros (length timescales))
  = Ok (map (fun t => heat_sum t eivals) timescales).
Proof. exact (heat_kernel_loop_from eivals [] timescales). Qed.

Lemma heat_kernel_trace_ok (self : NetLSD) (eivals : list R) :
  (0 <= scale_steps self)%Z ->
  _calculate_heat_kernel_trace self eivals =
    Ok (map (fun i => heat_sum (timescale self i) eivals / INR (length eivals))
            (seq 0 (Z.to_nat (scale_steps self)))).
Proof.
  intros Hsteps. unfold _calculate_heat_kernel_trace.
  rewrite logspace_ok by exact Hsteps. cbn [bind].
  rewrite heat_kernel_loop_ok. cbn [bind].
  now rewrite !map_map.
Qed.

Lemma heat_kernel_trace_raises (self : NetLSD) (eivals : list R) :
  (scale_steps self < 0)%Z ->
  exists e, _calculate_heat_kernel_trace self eivals = Raise e.
Proof.
  intros Hsteps. unfold _calculate_heat_kernel_trace.
  destruct (logspace_raises (scale_min self) (scale_max self) _ Hsteps) as [e ->].
  exists e; reflexivity.
Qed.

Lemma heat_kernel_trace_length (self : NetLSD) (eivals trace : list R) :
  _calculate_heat_kernel_trace self eivals = Ok trace ->
  Z.of_nat (length trace) = scale_steps self.
Proof.
  intros H. destruct (Z.ltb_spec (scale_steps self) 0) as [Hneg | Hpos].
  - destruct (heat_kernel_trace_raises self eivals Hneg) as [e He].
    congruence.
  - rewrite heat_kernel_trace_ok in H by exact Hpos. injection H as <-.
    rewrite length_map, length_seq. lia.
Qed.


Lemma timescale_mono (self : NetLSD) (i j : nat) :
  scale_min self <= scale_max self ->
  (i < j < Z.to_nat (scale_steps self))%nat ->
  timescale self i <= timescale self j.
Proof.
  intros Hscale [Hij Hj]. unfold timescale.
  apply Rle_Rpower; [lra |].
  apply Rplus_le_compat_l, Rmult_le_compat_r.
  - assert (Hsteps : 1 < IZR (scale_steps self)) by (apply IZR_lt; lia).
    apply Rmult_le_pos; [lra |].
    apply Rlt_le, Rinv_0_lt_compat. lra.
  - apply le_INR. lia.
Qed.

Lemma exp_le (x y : R) : x <= y -> exp x <= exp y.
Proof.
  intros [Hlt | ->]; [| lra]. apply Rlt_le, exp_increasing, Hlt.
Qed.

(** [ln 2] lies between 1/2 and 93/100, so the underflow bound lies
    between -1000 and -537. *)
Lemma ln_2_bounds : 1 / 2 < ln 2 < 93 / 100.
Proof.
  split.
  - pose proof ln_lt_2. lra.
  - assert (H : exp (ln 2) < exp (93 / 100)).
    { rewrite exp_ln by lra.
      replace (93 / 100) with (93 / 200 + 93 / 200) by lra.
      rewrite exp_plus.
      pose proof (exp_ineq1 (93 / 200)) as Hexp.
      assert (1 + 93 / 200 < exp (93 / 200)) by (apply Hexp; lra).
      nra. }
    destruct (Rlt_le_dec (ln 2) (93 / 100)) as [Hlt | Hge]; [exact Hlt |].
    apply exp_le in Hge. lra.
Qed.

Lemma underflow_bounds : - 1000 < np.underflow < - 537.
Proof. unfold np.underflow. pose proof ln_2_bounds. lra. Qed.

Lemma np_exp_eq (x : R) : np.underflow < x -> np.exp x = exp x.
Proof.
  intros Hx. unfold np.exp.
  destruct (Rle_dec x np.underflow) as [Hle | _]; [lra | reflexivity].
Qed.


Lemma np_exp_0 : np.exp 0 = 1.
Proof.
  rewrite np_exp_eq; [apply exp_0 |]. pose proof underflow_bounds. lra.
Qed.


Lemma np_exp_le (x y : R) : x <= y -> np.exp x <= np.exp y.
Proof.
  intros Hxy. unfold np.exp.
  destruct (Rle_dec x np.underflow) as [Hx | Hx];
    destruct (Rle_dec y np.underflow) as [Hy | Hy].
  - lra.
  - apply Rlt_le, exp_pos.
  - lra.
  - apply exp_le, Hxy.
Qed.




Lemma heat_sum_antitone (s t : R) (eivals : list R) :
  s <= t -> Forall (fun ev => 0 <= ev) eivals ->
  heat_sum t eivals <= heat_sum s eivals.
Proof.
  intros Hst Hev. unfold heat_sum.
  induction Hev as [| ev l Hpos _ IH].
  - simpl. lra.
  - cbn [map np.sum fold_right].
    assert (np.exp (- t * ev) <= np.exp (- s * ev)) by (apply np_exp_le; nra).
    unfold np.sum in IH. lra.
Qed.

Lemma length_pos_INR {A : Type} (l : list A) : l <> [] -> 0 < INR (length l).
Proof.
  destruct l; [congruence | intros _].
  apply lt_0_INR. simpl. lia.
Qed.

(** What the code divides by: the number of values it was handed. *)
Lemma heat_kernel_trace_entry (self : NetLSD) (eivals trace : list R) (i : nat) :
  _calculate_heat_kernel_trace self eivals = Ok trace ->
  (i < length trace)%nat ->
  nth i trace 0 = heat_sum (timescale self i) eivals / INR (length eivals).
Proof.
  intros H Hi. pose proof (heat_kernel_trace_length _ _ _ H) as Hlen.
  rewrite heat_kernel_trace_ok in H by lia. injection H as <-.
  rewrite length_map, length_seq in Hi. now rewrite nth_map_seq.
Qed.

(** C8. For a non-empty spectrum of non-negative values and an ascending
    grid ([scale_min <= scale_max]), the trace vector is computed and is
    non-increasing along the time-scale index: [i < j] gives
    [trace[j] <= trace[i]]. *)
Theorem heat_kernel_trace_non_increasing (self : NetLSD) (eivals : list R) :
  scale_min self <= scale_max self ->
  (0 <= scale_steps self)%Z ->
  eivals <> [] ->
  Forall (fun ev => 0 <= ev) eivals ->
  exists trace,
    _calculate_heat_kernel_trace self eivals = Ok trace /\
    Z.of_nat (length trace) = scale_steps self /\
    forall i j, (i < j < length trace)%nat -> nth j trace 0 <= nth i trace 0.
Proof.
  intros Hscale Hsteps Hne Hev.
  eexists. split; [apply heat_kernel_trace_ok, Hsteps |].
  split; [rewrite length_map, length_seq; lia |].
  intros i j. rewrite length_map, length_seq. intros Hij.
  rewrite !nth_map_seq by lia.
  apply Rmult_le_compat_r.
  - apply Rlt_le, Rinv_0_lt_compat, length_pos_INR, Hne.
  - apply heat_sum_antitone; [apply timescale_mono; assumption | exact Hev].
Qed.

Lemma heat_kernel_trace_non_increasing_witness :
  exists trace,
    _calculate_heat_kernel_trace defaults [0; 3 / 2; 3 / 2] = Ok trace /\
    Z.of_nat (length trace) = scale_steps defaults /\
    forall i j, (i < j < length trace)%nat -> nth j trace 0 <= nth i trace 0.
Proof.
  apply (heat_kernel_trace_non_increasing defaults [0; 3 / 2; 3 / 2]).
  - simpl. lra.
  - simpl. lia.
  - discriminate.
  - repeat constructor; lra.
Defined.





(** ** The complete graph on three nodes *)

(** [K3] has no self-loop, so the first statement of the pipeline
    leaves it as it is. *)
Lemma K3_remove_selfloops :
  nx.remove_edges_from K3 (nx.selfloop_edges K3) = K3.
Proof. reflexivity. Qed.

Lemma K3_laplacian_eq :
  nxla.normalized_laplacian_matrix K3 = Ok K3_laplacian.
Proof. reflexivity. Qed.

Lemma K3_laplacian_coeff (i j : nat) :
  (i < 3)%nat -> (j < 3)%nat ->
  coeff K3_laplacian i j = if (i =? j)%nat then 1 else - (1 / 2).
Proof.
  intros Hi Hj.
  assert (Hs : sqrt 2 * sqrt 2 = 2) by (apply sqrt_sqrt; lra).
  assert (Hpos : 0 < sqrt 2) by (apply sqrt_lt_R0; lra).
  assert (Hi' : (i = 0 \/ i = 1 \/ i = 2)%nat) by lia.
  assert (Hj' : (j = 0 \/ j = 1 \/ j = 2)%nat) by lia.
  destruct Hi' as [-> | [-> | ->]]; destruct Hj' as [-> | [-> | ->]];
    cbn [coeff K3_laplacian];
    change (nx.degree K3 0) with 2%nat; change (nx.degree K3 1) with 2%nat;
    change (nx.degree K3 2) with 2%nat;
    cbn [Nat.eqb INR];
    repeat match goal with
           | |- context [nx.has_edge K3 ?a ?b] =>
             let v := eval vm_compute in (nx.has_edge K3 a b) in
             change (nx.has_edge K3 a b) with v
           end;
    cbv iota; replace (1 + 1) with 2 by lra.
  1, 5, 9: transitivity (2 / (sqrt 2 * sqrt 2)); [field; lra | rewrite Hs; field].
  all: transitivity (- (1 / (sqrt 2 * sqrt 2))); [field; lra | rewrite Hs; field].
Qed.

Lemma K3_laplacian_eigen :
  is_eigenpair K3_laplacian 0 (fun _ => 1) /\
  is_eigenpair K3_laplacian (3 / 2)
    (fun i => match i with 0%nat => 1 | 1%nat => -1 | _ => 0 end) /\
  is_eigenpair K3_laplacian (3 / 2)
    (fun i => match i with 0%nat => 1 | 2%nat => -1 | _ => 0 end).
Proof.
  assert (Hrow : forall v i, (i < 3)%nat ->
            matvec K3_laplacian v i =
            (if (i =? 0)%nat then 1 else - (1 / 2)) * v 0%nat
            + ((if (i =? 1)%nat then 1 else - (1 / 2)) * v 1%nat
               + ((if (i =? 2)%nat then 1 else - (1 / 2)) * v 2%nat + 0))).
  { intros v i Hi. unfold matvec.
    change (shape0 K3_laplacian) with 3%nat.
    cbn [seq map np.sum fold_right].
    rewrite !K3_laplacian_coeff by lia. reflexivity. }
  repeat split.
  - exists 0%nat. split; [simpl; lia | lra].
  - intros i Hi. change (shape0 K3_laplacian) with 3%nat in Hi.
    rewrite Hrow by exact Hi.
    destruct i as [| [| [| i]]]; simpl; try lra; lia.
  - exists 0%nat. split; [simpl; lia | lra].
  - intros i Hi. change (shape0 K3_laplacian) with 3%nat in Hi.
    rewrite Hrow by exact Hi.
    destruct i as [| [| [| i]]]; simpl; try lra; lia.
  - exists 0%nat. split; [simpl; lia | lra].
  - intros i Hi. change (shape0 K3_laplacian) with 3%nat in Hi.
    rewrite Hrow by exact Hi.
    destruct i as [| [| [| i]]]; simpl; try lra; lia.
Qed.

(** The eigenvalues 0, 3/2, 3/2 of that matrix, with eigenvectors
    (1, 1, 1), (1, -1, 0) and (1, 0, -1). *)
Lemma K3_laplacian_eigenpairs :
  is_eigenpair K3_laplacian 0 (fun _ => 1) /\
  is_eigenpair K3_laplacian (3 / 2)
    (fun i => match i with 0%nat => 1 | 1%nat => -1 | _ => 0 end) /\
  is_eigenpair K3_laplacian (3 / 2)
    (fun i => match i with 0%nat => 1 | 2%nat => -1 | _ => 0 end).
Proof. exact K3_laplacian_eigen. Qed.

Lemma timescale_unit_grid : timescale unit_grid 0 = 1.
Proof.
  unfold timescale. cbn [scale_min scale_max scale_steps unit_grid INR].
  rewrite Rmult_0_l, Rplus_0_l. apply Rpower_O. lra.
Qed.

Lemma heat_kernel_trace_unit_grid (eivals : list R) :
  _calculate_heat_kernel_trace unit_grid eivals =
    Ok [heat_sum 1 eivals / INR (length eivals)].
Proof.
  rewrite heat_kernel_trace_ok by (simpl; lia).
  change (Z.to_nat (scale_steps unit_grid)) with 1%nat.
  cbn [seq map]. now rewrite timescale_unit_grid.
Qed.

Lemma heat_kernel_trace_entry_witness :
  nth 0 [heat_sum 1 [0; 3 / 2] / INR (length [0; 3 / 2])] 0 =
    heat_sum (timescale unit_grid 0) [0; 3 / 2] / INR (length [0; 3 / 2]).
Proof.
  apply (heat_kernel_trace_entry unit_grid [0; 3 / 2]
           [heat_sum 1 [0; 3 / 2] / INR (length [0; 3 / 2])] 0).
  - apply heat_kernel_trace_unit_grid.
  - simpl. lia.
Defined.

Lemma heat_sum_unit_grid :
  heat_sum 1 [0; 3 / 2] = exp 0 + exp (- (3 / 2)).
Proof.
  unfold heat_sum. cbn [map np.sum fold_right].
  replace (- (1) * 0) with 0 by lra.
  replace (- (1) * (3 / 2)) with (- (3 / 2)) by lra.
  pose proof underflow_bounds.
  rewrite !np_exp_eq by lra. lra.
Qed.

Lemma exp_minus_three_halves_lt_1 : exp (- (3 / 2)) < 1.
Proof. rewrite <- exp_0. apply exp_increasing. lra. Qed.

(** C1. The divisor is the number of values handed to the function, not
    the node count: for the two values [0, 3/2] the exact branch yields
    on the three-node graph [K3], the entry at time scale 1 is
    [(e^0 + e^-1.5) / 2], which differs from the same sum divided by the
    node count 3. *)
Theorem heat_kernel_trace_divisor_is_spectrum_length :
  _calculate_heat_kernel_trace unit_grid [0; 3 / 2] =
    Ok [(exp 0 + exp (- (3 / 2))) / 2] /\
  (exp 0 + exp (- (3 / 2))) / 2
    <> (exp 0 + exp (- (3 / 2))) / INR (number_of_nodes K3).
Proof.
  split.
  - rewrite heat_kernel_trace_unit_grid. do 2 f_equal.
    rewrite heat_sum_unit_grid. cbn [length INR]. lra.
  - cbn [number_of_nodes K3 INR].
    pose proof (exp_pos (- (3 / 2))). rewrite exp_0. lra.
Qed.

(** The pipeline on [K3] with the one-point grid, for a solver that
    answers the exact call with the values 0 and 3/2 in either order. *)
Lemma calculate_netlsd_K3 (eigsh : Eigsh) (ev : list R) :
  eigsh K3_laplacian 2%Z SM normal = Ok ev ->
  Permutation [0; 3 / 2] ev ->
  _calculate_netlsd eigsh unit_grid K3 =
    (K3, Ok [(exp 0 + exp (- (3 / 2))) / 2]).
Proof.
  intros Hsolver Hperm.
  unfold _calculate_netlsd. rewrite K3_remove_selfloops, K3_laplacian_eq.
  f_equal. cbn [bind]. unfold _calculate_eigenvalues.
  change (2 * approximations unit_grid + 2 <? Z.of_nat (shape0 K3_laplacian))%Z
    with false.
  change (Z.of_nat (shape0 K3_laplacian) - 1)%Z with 2%Z.
  rewrite Hsolver. cbn [bind].
  rewrite heat_kernel_trace_unit_grid. do 2 f_equal.
  apply Permutation_length_2_inv in Hperm.
  pose proof heat_sum_unit_grid as Hsum.
  destruct Hperm as [-> | ->]; cbn [length INR]; [rewrite Hsum; lra |].
  unfold heat_sum in *. cbn [map np.sum fold_right] in *. lra.
Qed.

Lemma table_eigsh_K3 :
  table_eigsh K3_spectrum K3_laplacian 2%Z SM normal = Ok [3 / 2; 0].
Proof. reflexivity. Qed.

(** C2. On [K3] with the one-point grid [1.0], the exact branch asks the
    solver for [nv - 1 = 2] values; for every solver that answers with
    the two smallest eigenvalues 0 and 3/2 (in either order) the trace
    is [(e^0 + e^-1.5) / 2], and not [(e^0 + e^-1.5 + e^-1.5) / 3]. *)
Theorem netlsd_K3_unit_grid (eigsh : Eigsh) (ev : list R) :
  eigsh K3_laplacian 2%Z SM normal = Ok ev ->
  Permutation [0; 3 / 2] ev ->
  _calculate_netlsd eigsh unit_grid K3 =
    (K3, Ok [(exp 0 + exp (- (3 / 2))) / 2]) /\
  (exp 0 + exp (- (3 / 2))) / 2
    <> (exp 0 + exp (- (3 / 2)) + exp (- (3 / 2))) / 3.
Proof.
  intros Hsolver Hperm. split.
  - apply (calculate_netlsd_K3 eigsh ev); assumption.
  - pose proof exp_minus_three_halves_lt_1. rewrite exp_0. lra.
Qed.

Lemma netlsd_K3_unit_grid_witness :
  _calculate_netlsd (table_eigsh K3_spectrum) unit_grid K3 =
    (K3, Ok [(exp 0 + exp (- (3 / 2))) / 2]) /\
  (exp 0 + exp (- (3 / 2))) / 2
    <> (exp 0 + exp (- (3 / 2)) + exp (- (3 / 2))) / 3.
Proof.
  apply (netlsd_K3_unit_grid (table_eigsh K3_spectrum) [3 / 2; 0]).
  - reflexivity.
  - apply perm_swap.
Defined.

(** ** Slice assignment *)

Lemma firstn_app_exact {A : Type} (l1 l2 : list A) (n : nat) :
  length l1 = n -> firstn n (l1 ++ l2) = l1.
Proof.
  intros <-. rewrite firstn_app, firstn_all, Nat.sub_diag. simpl.
  apply app_nil_r.
Qed.

Lemma skipn_app_exact {A : Type} (l1 l2 : list A) (n : nat) :
  length l1 = n -> skipn n (l1 ++ l2) = l2.
Proof.
  intros <-. rewrite skipn_app, skipn_all, Nat.sub_diag. reflexivity.
Qed.

Lemma firstn_app_le {A : Type} (l1 l2 : list A) (n : nat) :
  (n <= length l1)%nat -> firstn n (l1 ++ l2) = firstn n l1.
Proof.
  intros Hn. rewrite firstn_app.
  replace (n - length l1)%nat with 0%nat by lia. apply app_nil_r.
Qed.

Lemma skipn_app_ge {A : Type} (l1 l2 : list A) (n : nat) :
  (length l1 <= n)%nat -> skipn n (l1 ++ l2) = skipn (n - length l1) l2.
Proof.
  intros Hn. rewrite skipn_app, skipn_all2 by exact Hn. reflexivity.
Qed.

Lemma skipn_zeros (k n : nat) : skipn k (np.zeros n) = np.zeros (n - k).
Proof.
  unfold np.zeros. revert k. induction n as [| n IH]; intros [| k]; simpl;
    try reflexivity. apply IH.
Qed.

Lemma firstn_zeros (k n : nat) :
  (k <= n)%nat -> firstn k (np.zeros n) = np.zeros k.
Proof.
  unfold np.zeros. revert k. induction n as [| n IH]; intros [| k] Hk; simpl;
    try reflexivity; try lia. f_equal. apply IH. lia.
Qed.

(** A slice assignment whose right-hand side has as many entries as the
    slice has slots replaces exactly these slots. *)
Lemma setslice_exact (a vals : list R) (start stop : option Z) (lo hi : nat) :
  np.slice_bounds start stop (length a) = (lo, hi) ->
  (lo <= hi)%nat ->
  length vals = (hi - lo)%nat ->
  np.setslice a start stop vals = Ok (firstn lo a ++ vals ++ skipn hi a).
Proof.
  intros Hb Hle Hlen. unfold np.setslice. rewrite Hb, Hlen, Nat.eqb_refl.
  replace (lo + (hi - lo))%nat with hi by lia. reflexivity.
Qed.

(** A right-hand side of another length, other than 1, is refused. *)
Lemma setslice_mismatch (a vals : list R) (start stop : option Z) (lo hi : nat) :
  np.slice_bounds start stop (length a) = (lo, hi) ->
  length vals <> (hi - lo)%nat ->
  length vals <> 1%nat ->
  exists msg, np.setslice a start stop vals = Raise (ValueError msg).
Proof.
  intros Hb Hlen H1. unfold np.setslice. rewrite Hb.
  destruct (Nat.eqb_spec (length vals) (hi - lo)) as [E | _]; [contradiction |].
  destruct (Nat.eqb_spec (length vals) 1) as [E | _]; [contradiction |].
  eexists; reflexivity.
Qed.

(** The three slices of [_updown_linear_approx], for bands of length
    [k >= 2] inside an array of length [n >= 2 k]. *)
Lemma slice_bounds_lower (k n : nat) :
  (k <= n)%nat -> np.slice_bounds None (Some (Z.of_nat k)) n = (0%nat, k).
Proof.
  intros Hk. unfold np.slice_bounds, np.clip.
  destruct (Z.ltb_spec (Z.of_nat k) 0); [lia |].
  f_equal; lia.
Qed.

Lemma slice_bounds_upper (k n : nat) :
  (1 <= k <= n)%nat ->
  np.slice_bounds (Some (- Z.of_nat k)%Z) None n = ((n - k)%nat, n).
Proof.
  intros Hk. unfold np.slice_bounds, np.clip.
  destruct (Z.ltb_spec (- Z.of_nat k) 0); [| lia].
  f_equal; lia.
Qed.

Lemma slice_bounds_middle (k n : nat) :
  (2 <= k <= n)%nat ->
  np.slice_bounds (Some (Z.of_nat k - 1)%Z) (Some (- Z.of_nat k + 1)%Z) n
  = ((k - 1)%nat, (n - k + 1)%nat).
Proof.
  intros Hk. unfold np.slice_bounds, np.clip.
  destruct (Z.ltb_spec (Z.of_nat k - 1) 0); [lia |].
  destruct (Z.ltb_spec (- Z.of_nat k + 1) 0); [| lia].
  f_equal; lia.
Qed.

(** With a band of length 1 the stop bound [-nau + 1] is [0]: the
    middle slice is empty. *)
Lemma slice_bounds_middle_one (n : nat) :
  np.slice_bounds (Some (1 - 1)%Z) (Some (- 1 + 1)%Z) n = (0%nat, 0%nat).
Proof.
  unfold np.slice_bounds, np.clip. cbn [Z.sub Z.add Z.opp Z.pos_sub Z.ltb Z.compare].
  f_equal; lia.
Qed.

(** The array [_updown_linear_approx] builds from bands of length
    [k >= 2]: the lower band without its last value, the interpolated
    values, the upper band without its first value. *)
Lemma updown_linear_approx_ok (lower upper : list R) (k n : nat) :
  length lower = k -> length upper = k ->
  (2 <= k)%nat -> (2 * k <= n)%nat ->
  exists mid,
    np.linspace (last lower 0) (hd 0 upper) (Z.of_nat (n - 2 * k + 2)) = Ok mid /\
    _updown_linear_approx lower upper n =
      Ok (firstn (k - 1) lower ++ mid ++ skipn 1 upper).
Proof.
  intros Hl Hu Hk Hn.
  destruct (np.linspace (last lower 0) (hd 0 upper) (Z.of_nat (n - 2 * k + 2)))
    as [mid | e] eqn:Hmid.
  2:{ rewrite linspace_ok in Hmid by lia. discriminate Hmid. }
  exists mid. split; [reflexivity |].
  pose proof (linspace_length _ _ _ _ Hmid) as Hmidlen.
  rewrite Nat2Z.id in Hmidlen.
  unfold _updown_linear_approx. rewrite Hl, Hu.
  rewrite (setslice_exact _ _ _ _ 0 k);
    [| rewrite length_zeros; apply slice_bounds_lower; lia | lia | lia].
  cbn [bind firstn app]. rewrite skipn_zeros.
  rewrite (setslice_exact _ _ _ _ (n - k) n);
    [| rewrite length_app, length_zeros, Hl;
       replace (k + (n - k))%nat with n by lia;
       apply slice_bounds_upper; lia
     | lia | lia].
  cbn [bind].
  rewrite skipn_all2 by (rewrite length_app, length_zeros; lia).
  rewrite app_nil_r.
  replace (n - k)%nat with (length lower + (n - 2 * k))%nat by lia.
  rewrite firstn_app_2, firstn_zeros by lia.
  destruct lower as [| l0 lower']; [simpl in Hl; lia |].
  destruct upper as [| u0 upper']; [simpl in Hu; lia |].
  cbn [np.item_last np.item_first bind].
  replace (Z.of_nat n - Z.of_nat k - Z.of_nat k + 2)%Z
    with (Z.of_nat (n - 2 * k + 2)) by lia.
  cbn [hd] in Hmid. rewrite Hmid. cbn [bind].
  rewrite (setslice_exact _ _ _ _ (k - 1) (n - k + 1));
    [| rewrite !length_app, length_zeros, Hl, Hu;
       replace (k + (n - 2 * k) + k)%nat with n by lia;
       apply slice_bounds_middle; lia
     | lia | lia].
  f_equal.
  rewrite skipn_app_ge by (rewrite length_app, length_zeros; lia).
  rewrite firstn_app_le by (rewrite length_app, length_zeros; lia).
  rewrite firstn_app_le by lia.
  rewrite length_app, length_zeros.
  replace (n - k + 1 - (length (l0 :: lower') + (n - 2 * k)))%nat with 1%nat by lia.
  reflexivity.
Qed.

Lemma skipn_pred_length {A : Type} (l : list A) (m : nat) (d : A) :
  length l = S m -> skipn m l = [nth m l d].
Proof.
  revert m. induction l as [| x l IH]; intros m Hlen; [discriminate |].
  destruct m as [| m].
  - destruct l; [reflexivity | discriminate].
  - simpl. apply IH. simpl in Hlen. lia.
Qed.

Lemma firstn_pred_last {A : Type} (l : list A) (d : A) :
  l <> [] -> firstn (length l - 1) l ++ [last l d] = l.
Proof.
  intros Hne. pose proof (app_removelast_last d Hne) as H.
  rewrite removelast_firstn_len in H.
  replace (length l - 1)%nat with (Nat.pred (length l)) by lia.
  symmetry. exact H.
Qed.

(** The interpolation step on bands of length [k >= 2] with
    [2 k + 2 < n]: an array of length [n] whose first [k] entries are
    the lower band, whose last [k] entries are the upper band, and whose
    positions [k - 1 .. n - k] hold the [n - 2 k + 2] values linearly
    spaced from the last lower value to the first upper value. *)
Theorem updown_linear_approx_bands (lower upper : list R) (k n : nat) :
  length lower = k -> length upper = k ->
  (2 <= k)%nat -> (2 * k + 2 < n)%nat ->
  exists ret mid,
    _updown_linear_approx lower upper n = Ok ret /\
    np.linspace (last lower 0) (hd 0 upper) (Z.of_nat (n - 2 * k + 2)) = Ok mid /\
    length ret = n /\
    firstn k ret = lower /\
    skipn (n - k) ret = upper /\
    firstn (n - 2 * k + 2) (skipn (k - 1) ret) = mid.
Proof.
  intros Hl Hu Hk Hn.
  destruct (updown_linear_approx_ok lower upper k n Hl Hu Hk) as [mid [Hmid Hret]];
    [lia |].
  exists (firstn (k - 1) lower ++ mid ++ skipn 1 upper), mid.
  pose proof (linspace_length _ _ _ _ Hmid) as Hmidlen.
  rewrite Nat2Z.id in Hmidlen.
  assert (Hfirst : nth 0 mid 0 = last lower 0)
    by (apply (linspace_first _ _ _ _ Hmid); lia).
  assert (Hlast : nth (n - 2 * k + 1) mid 0 = hd 0 upper).
  { pose proof (linspace_last _ _ _ _ Hmid) as H.
    rewrite Nat2Z.id in H.
    replace (n - 2 * k + 2 - 1)%nat with (n - 2 * k + 1)%nat in H by lia.
    apply H. lia. }
  assert (HlenA : length (firstn (k - 1) lower) = (k - 1)%nat)
    by (rewrite length_firstn; lia).
  repeat split; try assumption.
  - rewrite !length_app, HlenA, Hmidlen, length_skipn. lia.
  - replace k with (length (firstn (k - 1) lower) + 1)%nat at 1 by lia.
    rewrite firstn_app_2.
    destruct mid as [| m0 mid']; [simpl in Hmidlen; lia |].
    cbn [app firstn]. simpl in Hfirst. rewrite Hfirst.
    rewrite <- Hl. apply firstn_pred_last.
    destruct lower; [simpl in Hl; lia | discriminate].
  - rewrite skipn_app_ge by lia. rewrite HlenA.
    rewrite skipn_app, Hmidlen.
    replace (n - k - (k - 1))%nat with (n - 2 * k + 1)%nat by lia.
    rewrite (skipn_pred_length mid (n - 2 * k + 1) 0) by lia.
    replace (n - 2 * k + 1 - (n - 2 * k + 2))%nat with 0%nat by lia.
    rewrite Hlast. destruct upper; [simpl in Hu; lia | reflexivity].
  - rewrite skipn_app_exact by exact HlenA.
    apply firstn_app_exact. exact Hmidlen.
Qed.

Lemma updown_linear_approx_bands_witness :
  exists ret mid,
    _updown_linear_approx [0; 1 / 2] [3 / 2; 2] 7 = Ok ret /\
    np.linspace (last [0; 1 / 2] 0) (hd 0 [3 / 2; 2]) (Z.of_nat (7 - 2 * 2 + 2))
      = Ok mid /\
    length ret = 7%nat /\
    firstn 2 ret = [0; 1 / 2] /\
    skipn (7 - 2) ret = [3 / 2; 2] /\
    firstn (7 - 2 * 2 + 2) (skipn (2 - 1) ret) = mid.
Proof.
  apply (updown_linear_approx_bands [0; 1 / 2] [3 / 2; 2] 2 7);
    [reflexivity | reflexivity | lia | lia].
Defined.

(** With bands of length 1 the middle slice is empty and the
    interpolated values do not fit: the call raises [ValueError]. *)
Lemma updown_linear_approx_band_of_one (lo up : R) (n : nat) :
  (2 * 1 + 2 < n)%nat ->
  exists msg, _updown_linear_approx [lo] [up] n = Raise (ValueError msg).
Proof.
  intros Hn. unfold _updown_linear_approx.
  rewrite (setslice_exact _ _ _ _ 0 1);
    [| rewrite length_zeros; apply slice_bounds_lower; lia | lia | reflexivity].
  cbn [bind firstn app]. rewrite skipn_zeros.
  rewrite (setslice_exact _ _ _ _ (n - 1) n);
    [| cbn [length]; rewrite length_zeros;
       replace (S (n - 1)) with n by lia;
       apply (slice_bounds_upper 1); lia
     | lia | simpl; lia].
  cbn [bind np.item_last np.item_first last length].
  rewrite linspace_ok by lia. cbn [bind].
  apply (setslice_mismatch _ _ _ _ 0 0).
  - apply slice_bounds_middle_one.
  - rewrite length_map, length_seq. lia.
  - rewrite length_map, length_seq. lia.
Qed.

Lemma updown_linear_approx_band_of_one_witness :
  exists msg, _updown_linear_approx [0] [2] 5 = Raise (ValueError msg).
Proof.
  apply (updown_linear_approx_band_of_one 0 2 5). lia.
Defined.

(** C7. For the bands [[0]] and [[2]] of length [k = 1] and [n = 5]
    (so [2 k + 2 < n]) the interpolation step returns no array: the
    third slice assignment raises [ValueError]. *)
Theorem updown_linear_approx_fails_for_one :
  _updown_linear_approx [0] [2] 5 =
    Raise (ValueError "could not broadcast input array").
Proof. reflexivity. Qed.

(** ** The graph argument *)

Lemma selfloop_removed (g : Graph) (e : nat * nat) :
  In e (edges g) ->
  existsb (nx.same_edge e) (nx.selfloop_edges g) = nx.is_selfloop e.
Proof.
  intros Hin. unfold nx.selfloop_edges.
  destruct (nx.is_selfloop e) eqn:Hloop.
  - apply existsb_exists. exists e. split.
    + apply filter_In. split; assumption.
    + unfold nx.same_edge. now rewrite !Nat.eqb_refl.
  - apply not_true_is_false. intros Hex.
    apply existsb_exists in Hex. destruct Hex as [f [Hf Hsame]].
    apply filter_In in Hf. destruct Hf as [_ Hf].
    unfold nx.is_selfloop in Hloop, Hf. unfold nx.same_edge in Hsame.
    apply Nat.eqb_eq in Hf. apply Nat.eqb_neq in Hloop.
    rewrite <- Hf in Hsame.
    apply orb_true_iff in Hsame.
    destruct Hsame as [H | H]; apply andb_true_iff in H; destruct H as [H1 H2];
      apply Nat.eqb_eq in H1, H2; congruence.
Qed.

Lemma remove_selfloops_edges (g : Graph) :
  edges (nx.remove_edges_from g (nx.selfloop_edges g)) =
    filter (fun e => negb (nx.is_selfloop e)) (edges g).
Proof.
  cbn [edges nx.remove_edges_from]. apply filter_ext_in.
  intros e Hin. now rewrite selfloop_removed.
Qed.

Lemma filter_all {A : Type} (f : A -> bool) (l : list A) :
  filter (fun a => negb (f a)) l = l <-> filter f l = [].
Proof.
  induction l as [| a l IH]; simpl; [tauto |].
  destruct (f a); simpl.
  - split; [| discriminate]. intros H.
    pose proof (filter_length_le (fun a => negb (f a)) l) as Hle.
    rewrite H in Hle. simpl in Hle. lia.
  - split; intros H.
    + injection H as H. now apply IH.
    + f_equal. now apply IH.
Qed.

(** C3, the counterexample: on [K3_loop] the pipeline leaves a graph
    that has lost the edge (0, 0). *)
Lemma calculate_netlsd_mutates_graph :
  ~ (forall (eigsh : Eigsh) (self : NetLSD) (graph : Graph) (e : nat * nat),
       In e (edges (fst (_calculate_netlsd eigsh self graph))) <->
       In e (edges graph)).
Proof.
  intros H.
  specialize (H (table_eigsh K3_spectrum) unit_grid K3_loop (0, 0)%nat).
  destruct H as [_ H].
  assert (Hin : In (0, 0)%nat (edges K3_loop)) by (simpl; auto).
  specialize (H Hin). cbn in H.
  repeat destruct H as [H | H]; try discriminate H; exact H.
Qed.

(** C3, as the code has it: the pipeline edits the caller's graph.
    After the run the graph has the same nodes and exactly its edges
    that are not self-loops, in their order; a graph without self-loops
    is left as it was. *)
Theorem calculate_netlsd_graph_effect
  (eigsh : Eigsh) (self : NetLSD) (graph : Graph) :
  number_of_nodes (fst (_calculate_netlsd eigsh self graph))
    = number_of_nodes graph /\
  edges (fst (_calculate_netlsd eigsh self graph))
    = filter (fun e => negb (nx.is_selfloop e)) (edges graph) /\
  (nx.selfloop_edges graph = [] ->
   fst (_calculate_netlsd eigsh self graph) = graph).
Proof.
  unfold _calculate_netlsd. cbn [fst]. repeat split.
  - apply remove_selfloops_edges.
  - intros Hnone.
    pose proof (remove_selfloops_edges graph) as Hedges.
    destruct graph as [n es]. unfold nx.remove_edges_from in *.
    cbn [number_of_nodes edges] in *. f_equal.
    rewrite Hedges. apply filter_all. exact Hnone.
Qed.

(** ** Construction and sequencing *)

(** C4, the counterexample: the constructor accepts [scale_steps = 0],
    [approximations = 0] and [scale_min = scale_max]. *)
Lemma init_accepts_invalid_configuration :
  ~ (forall (smin smax : R) (steps k : Z),
       (steps <= 0)%Z \/ (k <= 0)%Z \/ smin >= smax ->
       exists e, __init__ smin smax steps k = Raise e).
Proof.
  intros H. destruct (H 0 0 0%Z 0%Z) as [e He].
  - left. lia.
  - discriminate He.
Qed.

(** C4, as the code has it: construction validates nothing.  Every
    configuration yields an estimator that holds the four values as
    given and has no embedding yet. *)
Theorem init_stores_configuration (smin smax : R) (steps k : Z) :
  exists self,
    __init__ smin smax steps k = Ok self /\
    scale_min self = smin /\ scale_max self = smax /\
    scale_steps self = steps /\ approximations self = k /\
    _embedding self = None.
Proof.
  eexists. split; [reflexivity |]. cbn. repeat split.
Qed.

(** C5. An estimator that was constructed and never fitted has no
    [_embedding] attribute: [get_embedding] raises [AttributeError] for
    that attribute and returns no matrix, empty or not. *)
Theorem get_embedding_before_fit (smin smax : R) (steps k : Z) :
  exists self,
    __init__ smin smax steps k = Ok self /\
    get_embedding self = Raise (AttributeError "_embedding") /\
    forall rows, get_embedding self <> Ok rows.
Proof.
  eexists. split; [reflexivity |]. split; [reflexivity |].
  intros rows. discriminate.
Qed.

(** ** Branch selection *)

Lemma Sorted_firstn (l : list R) (m : nat) :
  Sorted Rle l -> Sorted Rle (firstn m l).
Proof.
  intros Hs. revert m.
  induction Hs as [| a l Hs IH Hhd]; intros [| m]; simpl; try constructor.
  - apply IH.
  - destruct Hhd as [| b l Hab]; destruct m; simpl; constructor. exact Hab.
Qed.





(** The exact branch hands back what the solver returns, unchanged. *)
Lemma calculate_eigenvalues_exact (eigsh : Eigsh) (self : NetLSD) (mat : coo_matrix) :
  (2 * approximations self + 2 >= Z.of_nat (shape0 mat))%Z ->
  _calculate_eigenvalues eigsh self mat =
    eigsh mat (Z.of_nat (shape0 mat) - 1)%Z SM normal.
Proof.
  intros Hk. unfold _calculate_eigenvalues.
  destruct (Z.ltb_spec (2 * approximations self + 2) (Z.of_nat (shape0 mat)));
    [lia | reflexivity].
Qed.

Lemma calculate_eigenvalues_approximate
  (eigsh : Eigsh) (self : NetLSD) (mat : coo_matrix) :
  (2 * approximations self + 2 < Z.of_nat (shape0 mat))%Z ->
  _calculate_eigenvalues eigsh self mat =
    (lo <- eigsh mat (approximations self) SM cayley ;;
     up <- eigsh mat (approximations self) LM cayley ;;
     _updown_linear_approx (rev lo) up (shape0 mat)).
Proof.
  intros Hk. unfold _calculate_eigenvalues.
  destruct (Z.ltb_spec (2 * approximations self + 2) (Z.of_nat (shape0 mat)));
    [reflexivity | lia].
Qed.




(** ** Fitting *)

Lemma calculate_netlsd_row_length
  (eigsh : Eigsh) (self : NetLSD) (graph graph' : Graph) (row : list R) :
  _calculate_netlsd eigsh self graph = (graph', Ok row) ->
  Z.of_nat (length row) = scale_steps self.
Proof.
  unfold _calculate_netlsd. intros H. injection H as _ H.
  apply bind_ok in H. destruct H as [mat [_ H]].
  apply bind_ok in H. destruct H as [ev [_ H]].
  apply (heat_kernel_trace_length _ _ _ H).
Qed.

Lemma fit_rows_shape
  (eigsh : Eigsh) (self : NetLSD) (graphs graphs' : list Graph)
  (rows : list (list R)) :
  fit_rows eigsh self graphs = (graphs', Ok rows) ->
  length rows = length graphs /\
  Forall (fun row => Z.of_nat (length row) = scale_steps self) rows.
Proof.
  revert graphs' rows.
  induction graphs as [| graph rest IH]; intros graphs' rows H.
  - simpl in H. injection H as _ <-. split; [reflexivity | constructor].
  - cbn [fit_rows] in H.
    destruct (_calculate_netlsd eigsh self graph) as [graph1 [row | e]] eqn:Hrow;
      [| discriminate H].
    destruct (fit_rows eigsh self rest) as [rest' [rows' | e]] eqn:Hrest;
      [| discriminate H].
    cbn [bind] in H. injection H as _ <-.
    destruct (IH rest' rows' eq_refl) as [Hlen Hall].
    split; [simpl; now rewrite Hlen |].
    constructor; [| exact Hall].
    apply (calculate_netlsd_row_length _ _ _ _ _ Hrow).
Qed.

(** C9. When [fit] has run to its end on a sequence of graphs,
    [get_embedding] returns a matrix with one row per graph, each row of
    length [scale_steps], whatever the sizes of the graphs. *)
Theorem fit_then_get_embedding_shape
  (eigsh : Eigsh) (self self' : NetLSD) (graphs graphs' : list Graph) :
  fit eigsh self graphs = (graphs', Ok self') ->
  exists rows,
    get_embedding self' = Ok rows /\
    length rows = length graphs /\
    Forall (fun row => Z.of_nat (length row) = scale_steps self) rows.
Proof.
  unfold fit. intros H.
  destruct (fit_rows eigsh self graphs) as [gs [rows | e]] eqn:Hrows;
    [| discriminate H].
  cbn [bind] in H. injection H as _ <-.
  exists rows. split; [reflexivity |].
  apply (fit_rows_shape _ _ _ _ _ Hrows).
Qed.

(** The estimator [unit_grid] after fitting [K3] and [K3_loop]. *)
Lemma calculate_netlsd_K3_loop :
  _calculate_netlsd (table_eigsh K3_spectrum) unit_grid K3_loop =
    (K3, Ok [(exp 0 + exp (- (3 / 2))) / 2]).
Proof.
  change (_calculate_netlsd (table_eigsh K3_spectrum) unit_grid K3_loop)
    with (_calculate_netlsd (table_eigsh K3_spectrum) unit_grid K3).
  apply (calculate_netlsd_K3 _ _ table_eigsh_K3 (perm_swap _ _ _)).
Qed.

Lemma fit_K3_twice :
  fit (table_eigsh K3_spectrum) unit_grid [K3; K3_loop] =
    ([K3; K3],
     Ok {| scale_min := 0; scale_max := 0; scale_steps := 1;
           approximations := 50;
           _embedding := Some [[(exp 0 + exp (- (3 / 2))) / 2];
                               [(exp 0 + exp (- (3 / 2))) / 2]] |}).
Proof.
  unfold fit. cbn [fit_rows].
  rewrite calculate_netlsd_K3_loop.
  rewrite (calculate_netlsd_K3 _ _ table_eigsh_K3 (perm_swap _ _ _)).
  reflexivity.
Qed.

Lemma fit_then_get_embedding_shape_witness :
  exists rows,
    get_embedding
      {| scale_min := 0; scale_max := 0; scale_steps := 1;
         approximations := 50;
         _embedding := Some [[(exp 0 + exp (- (3 / 2))) / 2];
                             [(exp 0 + exp (- (3 / 2))) / 2]] |} = Ok rows /\
    length rows = length [K3; K3_loop] /\
    Forall (fun row => Z.of_nat (length row) = scale_steps unit_grid) rows.
Proof.
  apply (fit_then_get_embedding_shape (table_eigsh K3_spectrum) unit_grid _
           [K3; K3_loop] [K3; K3]).
  exact fit_K3_twice.
Defined.

(** When the solver calls return, the bands with [k >= 2] values each,
    the spectrum estimator returns a spectrum. *)
Lemma calculate_eigenvalues_ok
  (eigsh : Eigsh) (self : NetLSD) (mat : coo_matrix) :
  (2 <= approximations self)%Z ->
  solver_serves eigsh self mat ->
  exists ev, _calculate_eigenvalues eigsh self mat = Ok ev.
Proof.
  intros Hk Hserves. unfold solver_serves in Hserves.
  destruct (Z.ltb_spec (2 * approximations self + 2) (Z.of_nat (shape0 mat)))
    as [Happrox | Hexact].
  - rewrite calculate_eigenvalues_approximate by exact Happrox.
    destruct Hserves as [lo [up [-> [-> [Hlo Hup]]]]]. cbn [bind].
    destruct (updown_linear_approx_ok (rev lo) up
                (Z.to_nat (approximations self)) (shape0 mat))
      as [mid [_ ->]].
    + now rewrite length_rev.
    + exact Hup.
    + lia.
    + lia.
    + eexists; reflexivity.
  - rewrite calculate_eigenvalues_exact by lia.
    destruct Hserves as [ev ->]. eexists; reflexivity.
Qed.

(** [fit] runs to its end whenever every solver call it makes returns,
    the bands with the number of values asked for, the grid size is not
    negative, the bands have at least two values and every graph has a
    node; every graph is then left without self-loops. *)
Theorem fit_succeeds
  (eigsh : Eigsh) (self : NetLSD) (graphs : list Graph) :
  (0 <= scale_steps self)%Z ->
  (2 <= approximations self)%Z ->
  Forall
    (fun g =>
       (1 <= number_of_nodes g)%nat /\
       forall mat,
         nxla.normalized_laplacian_matrix
           (nx.remove_edges_from g (nx.selfloop_edges g)) = Ok mat ->
         solver_serves eigsh self mat)
    graphs ->
  exists self',
    fit eigsh self graphs =
      (map (fun g => nx.remove_edges_from g (nx.selfloop_edges g)) graphs,
       Ok self').
Proof.
  intros Hsteps Hk Hgraphs.
  assert (Hrows : exists rows,
             fit_rows eigsh self graphs =
               (map (fun g => nx.remove_edges_from g (nx.selfloop_edges g)) graphs,
                Ok rows)).
  { induction Hgraphs as [| g rest [Hg Hserves] _ IH].
    - exists []. reflexivity.
    - destruct IH as [rows IH]. cbn [fit_rows map]. unfold _calculate_netlsd.
      set (g' := nx.remove_edges_from g (nx.selfloop_edges g)) in *.
      destruct (nxla.normalized_laplacian_matrix g') as [mat | e] eqn:Hmat.
      2:{ unfold nxla.normalized_laplacian_matrix in Hmat.
          change (number_of_nodes g') with (number_of_nodes g) in Hmat.
          destruct (Nat.eqb_spec (number_of_nodes g) 0) as [E | _];
            [lia | discriminate Hmat]. }
      cbn [bind].
      destruct (calculate_eigenvalues_ok eigsh self mat Hk (Hserves mat eq_refl))
        as [ev ->].
      cbn [bind]. rewrite heat_kernel_trace_ok by exact Hsteps.
      rewrite IH. cbn [bind]. eexists; reflexivity. }
  destruct Hrows as [rows Hrows]. unfold fit. rewrite Hrows.
  cbn [bind]. eexists; reflexivity.
Qed.

Lemma fit_succeeds_witness :
  exists self',
    fit (table_eigsh K3_spectrum) defaults [K3; K3_loop] =
      (map (fun g => nx.remove_edges_from g (nx.selfloop_edges g)) [K3; K3_loop],
       Ok self').
Proof.
  apply (fit_succeeds (table_eigsh K3_spectrum) defaults [K3; K3_loop]).
  - simpl. lia.
  - simpl. lia.
  - repeat constructor;
      intros mat Hmat;
      change (Ok K3_laplacian = Ok mat) in Hmat;
      injection Hmat as <-;
      exists [3 / 2; 0]; reflexivity.
Defined.

(** * Further properties *)

(** ** Slice assignment keeps the length *)

Lemma slice_bounds_le (start stop : option Z) (len lo hi : nat) :
  np.slice_bounds start stop len = (lo, hi) -> (lo <= len /\ hi <= len)%nat.
Proof.
  unfold np.slice_bounds, np.clip. intros H. injection H as <- <-.
  destruct start as [i |], stop as [j |];
    repeat match goal with
           | |- context [(?x <? 0)%Z] => destruct (Z.ltb_spec x 0)
           end; lia.
Qed.

Lemma setslice_length (a vals r : list R) (start stop : option Z) :
  np.setslice a start stop vals = Ok r -> length r = length a.
Proof.
  unfold np.setslice.
  destruct (np.slice_bounds start stop (length a)) as [lo hi] eqn:Hb.
  apply slice_bounds_le in Hb. destruct Hb as [Hlo Hhi].
  destruct (Nat.eqb_spec (length vals) (hi - lo)) as [Hlen | _].
  - intros H. injection H as <-.
    rewrite !length_app, length_firstn, length_skipn. lia.
  - destruct (length vals =? 1)%nat; [| discriminate].
    intros H. injection H as <-.
    rewrite !length_app, length_firstn, repeat_length, length_skipn. lia.
Qed.

(** Whatever the bands, an array that [_updown_linear_approx] returns
    has [nv] entries, and both bands were non-empty. *)
Lemma updown_linear_approx_returns
  (lower upper ret : list R) (nv : nat) :
  _updown_linear_approx lower upper nv = Ok ret ->
  length ret = nv /\ lower <> [] /\ upper <> [].
Proof.
  unfold _updown_linear_approx. intros H.
  apply bind_ok in H. destruct H as [r1 [H1 H]].
  apply bind_ok in H. destruct H as [r2 [H2 H]].
  apply bind_ok in H. destruct H as [lo [Hlo H]].
  apply bind_ok in H. destruct H as [up [Hup H]].
  apply bind_ok in H. destruct H as [mid [_ H3]].
  apply setslice_length in H1, H2, H3.
  repeat split.
  - rewrite H3, H2, H1. apply length_zeros.
  - intros ->. discriminate Hlo.
  - intros ->. discriminate Hup.
Qed.

(** An empty band is never accepted: the call raises, either when a
    slice cannot take its values or when [eigvals_lower[-1]] or
    [eigvals_upper[0]] is read. *)
Theorem updown_linear_approx_empty_band (lower upper : list R) (nv : nat) :
  lower = [] \/ upper = [] ->
  exists e, _updown_linear_approx lower upper nv = Raise e.
Proof.
  intros Hempty.
  destruct (_updown_linear_approx lower upper nv) as [ret | e] eqn:H.
  - apply updown_linear_approx_returns in H. destruct H as [_ [Hl Hu]].
    destruct Hempty; contradiction.
  - exists e. reflexivity.
Qed.

Lemma updown_linear_approx_empty_band_witness :
  exists e, _updown_linear_approx [] [3 / 2; 2] 7 = Raise e.
Proof.
  apply (updown_linear_approx_empty_band [] [3 / 2; 2] 7).
  left. reflexivity.
Defined.

Lemma calculate_eigenvalues_approximate_length_aux
  (eigsh : Eigsh) (self : NetLSD) (mat : coo_matrix) (ev : list R) :
  (2 * approximations self + 2 < Z.of_nat (shape0 mat))%Z ->
  _calculate_eigenvalues eigsh self mat = Ok ev ->
  length ev = shape0 mat.
Proof.
  intros Hk H. rewrite calculate_eigenvalues_approximate in H by exact Hk.
  apply bind_ok in H. destruct H as [lo [_ H]].
  apply bind_ok in H. destruct H as [up [_ H]].
  apply (updown_linear_approx_returns _ _ _ _ H).
Qed.

(** In the approximate branch the estimator returns, if anything, a
    spectrum with one value per row of the matrix and bands that were
    not empty, whatever the solver answered. *)
Theorem calculate_eigenvalues_approximate_returns
  (eigsh : Eigsh) (self : NetLSD) (mat : coo_matrix) (ev : list R) :
  (2 * approximations self + 2 < Z.of_nat (shape0 mat))%Z ->
  _calculate_eigenvalues eigsh self mat = Ok ev ->
  length ev = shape0 mat /\
  exists lo up,
    eigsh mat (approximations self) SM cayley = Ok lo /\
    eigsh mat (approximations self) LM cayley = Ok up /\
    lo <> [] /\ up <> [].
Proof.
  intros Hk H. split.
  - apply (calculate_eigenvalues_approximate_length_aux eigsh self mat ev Hk H).
  - rewrite calculate_eigenvalues_approximate in H by exact Hk.
    apply bind_ok in H. destruct H as [lo [Hlo H]].
    apply bind_ok in H. destruct H as [up [Hup H]].
    apply updown_linear_approx_returns in H. destruct H as [_ [Hl Hu]].
    exists lo, up. repeat split; try assumption.
    intros ->. apply Hl. reflexivity.
Qed.

Lemma calculate_eigenvalues_approximate_returns_witness :
  exists mat ev,
    nxla.normalized_laplacian_matrix K7 = Ok mat /\
    _calculate_eigenvalues (table_eigsh K7_spectrum) band_estimator mat
      = Ok ev /\
    (length ev = shape0 mat /\
     exists lo up,
       table_eigsh K7_spectrum mat (approximations band_estimator) SM cayley
         = Ok lo /\
       table_eigsh K7_spectrum mat (approximations band_estimator) LM cayley
         = Ok up /\
       lo <> [] /\ up <> []).
Proof.
  do 2 eexists. split; [reflexivity |]. split.
  - reflexivity.
  - eapply (calculate_eigenvalues_approximate_returns
              (table_eigsh K7_spectrum) band_estimator).
    + simpl. lia.
    + reflexivity.
Defined.

(** ** Order of the interpolated spectrum *)

Lemma Sorted_Rle_app (l1 l2 : list R) (b : R) :
  Sorted Rle l1 -> Sorted Rle l2 ->
  (forall x, In x l1 -> x <= b) ->
  (forall y, In y l2 -> b <= y) ->
  Sorted Rle (l1 ++ l2).
Proof.
  intros H1 H2 Hb1 Hb2. induction H1 as [| a l1 Hs IH Hhd]; [exact H2 |].
  cbn [app]. constructor.
  - apply IH. intros x Hx. apply Hb1. now right.
  - destruct l1 as [| a' l1'].
    + destruct l2 as [| y l2']; constructor.
      apply Rle_trans with b; [apply Hb1 | apply Hb2]; now left.
    + constructor. now inversion Hhd.
Qed.

Lemma Sorted_Rle_bounds (l : list R) (x : R) :
  Sorted Rle l -> In x l -> hd 0 l <= x <= last l 0.
Proof.
  intros Hs. revert x. induction Hs as [| a l Hs IH Hhd]; intros x Hin.
  - contradiction.
  - destruct l as [| a' l'].
    + destruct Hin as [<- | []]. simpl. lra.
    + assert (Haa' : a <= a') by now inversion Hhd.
      change (last (a :: a' :: l') 0) with (last (a' :: l') 0).
      cbn [hd]. destruct Hin as [<- | Hin].
      * specialize (IH a' (or_introl eq_refl)). cbn [hd] in IH. lra.
      * specialize (IH x Hin). cbn [hd] in IH. lra.
Qed.

Lemma Sorted_Rle_skipn (l : list R) (m : nat) :
  Sorted Rle l -> Sorted Rle (skipn m l).
Proof.
  intros Hs. revert l Hs. induction m as [| m IH]; intros l Hs; [exact Hs |].
  destruct l as [| a l]; [constructor |]. cbn [skipn].
  apply IH. now inversion Hs.
Qed.

Lemma In_firstn_In {A : Type} (l : list A) (m : nat) (x : A) :
  In x (firstn m l) -> In x l.
Proof.
  intros H. rewrite <- (firstn_skipn m l). apply in_or_app. now left.
Qed.

Lemma In_skipn_In {A : Type} (l : list A) (m : nat) (x : A) :
  In x (skipn m l) -> In x l.
Proof.
  intros H. rewrite <- (firstn_skipn m l). apply in_or_app. now right.
Qed.

Lemma Sorted_map_seq (f : nat -> R) (s m : nat) :
  (forall i, f i <= f (S i)) -> Sorted Rle (map f (seq s m)).
Proof.
  intros Hf. revert s. induction m as [| m IH]; intros s; [constructor |].
  cbn [seq map]. constructor; [apply IH |].
  destruct m; [constructor |]. cbn [seq map]. constructor. apply Hf.
Qed.

(** The samples of [np.linspace] from [start] up to [stop >= start]
    ascend and stay between the two. *)
Lemma linspace_ascending (start stop : R) (num : Z) (y : list R) :
  start <= stop -> (2 <= num)%Z ->
  np.linspace start stop num = Ok y ->
  Sorted Rle y /\ forall x, In x y -> start <= x <= stop.
Proof.
  intros Hle Hnum H. rewrite linspace_ok in H by lia. injection H as <-.
  assert (Hden : 0 < IZR num - 1).
  { assert (1 < IZR num) by (apply IZR_lt; lia). lra. }
  assert (Hstep : 0 <= (stop - start) / (IZR num - 1)).
  { apply Rmult_le_pos; [lra |]. apply Rlt_le, Rinv_0_lt_compat, Hden. }
  split.
  - apply Sorted_map_seq. intros i. rewrite S_INR. nra.
  - intros x Hx. apply in_map_iff in Hx. destruct Hx as [i [<- Hi]].
    apply in_seq in Hi. split.
    + pose proof (pos_INR i). nra.
    + assert (Hi' : INR i <= IZR num - 1).
      { replace (IZR num - 1) with (INR (Z.to_nat num - 1)).
        - apply le_INR. lia.
        - rewrite minus_INR by lia. rewrite INR_IZR_INZ, Z2Nat.id by lia.
          simpl. lra. }
      replace stop with (start + (IZR num - 1) * ((stop - start) / (IZR num - 1)))
        at 2 by (field; lra).
      nra.
Qed.

(** For ascending bands of length [k >= 2] with
    [eigvals_lower[-1] <= eigvals_upper[0]] and [2 k <= nv], the array
    [_updown_linear_approx] returns is ascending. *)
Theorem updown_linear_approx_ascending (lower upper : list R) (k n : nat) :
  length lower = k -> length upper = k ->
  (2 <= k)%nat -> (2 * k <= n)%nat ->
  Sorted Rle lower -> Sorted Rle upper ->
  last lower 0 <= hd 0 upper ->
  exists ret, _updown_linear_approx lower upper n = Ok ret /\ Sorted Rle ret.
Proof.
  intros Hl Hu Hk Hn Hsl Hsu Hgap.
  destruct (updown_linear_approx_ok lower upper k n Hl Hu Hk Hn)
    as [mid [Hmid Hret]].
  exists (firstn (k - 1) lower ++ mid ++ skipn 1 upper).
  split; [exact Hret |].
  assert (Hnum : (2 <= Z.of_nat (n - 2 * k + 2))%Z) by lia.
  destruct (linspace_ascending _ _ _ _ Hgap Hnum Hmid) as [Hsm Hbm].
  apply Sorted_Rle_app with (b := last lower 0).
  - apply Sorted_firstn, Hsl.
  - apply Sorted_Rle_app with (b := hd 0 upper).
    + exact Hsm.
    + apply Sorted_Rle_skipn, Hsu.
    + intros x Hx. apply (Hbm x Hx).
    + intros y Hy. apply In_skipn_In in Hy.
      apply (Sorted_Rle_bounds upper y Hsu Hy).
  - intros x Hx. apply In_firstn_In in Hx.
    apply (Sorted_Rle_bounds lower x Hsl Hx).
  - intros y Hy. apply in_app_or in Hy. destruct Hy as [Hy | Hy].
    + apply (Hbm y Hy).
    + apply In_skipn_In in Hy.
      apply Rle_trans with (hd 0 upper); [exact Hgap |].
      apply (Sorted_Rle_bounds upper y Hsu Hy).
Qed.

Lemma updown_linear_approx_ascending_witness :
  exists ret,
    _updown_linear_approx [0; 1 / 2] [3 / 2; 2] 7 = Ok ret /\ Sorted Rle ret.
Proof.
  apply (updown_linear_approx_ascending [0; 1 / 2] [3 / 2; 2] 2 7).
  - reflexivity.
  - reflexivity.
  - lia.
  - lia.
  - repeat constructor; lra.
  - repeat constructor; lra.
  - simpl. lra.
Defined.

(** ** More on the heat kernel trace *)

Lemma heat_sum_permutation (t : R) (eivals eivals' : list R) :
  Permutation eivals eivals' -> heat_sum t eivals = heat_sum t eivals'.
Proof.
  unfold heat_sum. intros Hperm.
  induction Hperm as [| x l l' _ IH | x y l | l l' l'' _ IH1 _ IH2];
    cbn [map np.sum fold_right] in *.
  - reflexivity.
  - unfold np.sum in IH. now rewrite IH.
  - lra.
  - now rewrite IH1.
Qed.

(** The trace depends on the spectrum as a multiset only: listing the
    same eigenvalues in another order gives the same result, be it a
    vector or the error of a negative [scale_steps]. *)
Theorem heat_kernel_trace_permutation
  (self : NetLSD) (eivals eivals' : list R) :
  Permutation eivals eivals' ->
  _calculate_heat_kernel_trace self eivals
  = _calculate_heat_kernel_trace self eivals'.
Proof.
  intros Hperm. unfold _calculate_heat_kernel_trace.
  destruct (np.logspace (scale_min self) (scale_max self) (scale_steps self))
    as [timescales | e]; [| reflexivity].
  cbn [bind]. rewrite !heat_kernel_loop_ok. cbn [bind].
  rewrite (Permutation_length Hperm). f_equal.
  rewrite !map_map. apply map_ext. intros t.
  now rewrite (heat_sum_permutation t _ _ Hperm).
Qed.

Lemma heat_kernel_trace_permutation_witness :
  _calculate_heat_kernel_trace defaults [0; 3 / 2; 2]
  = _calculate_heat_kernel_trace defaults [2; 0; 3 / 2].
Proof.
  apply (heat_kernel_trace_permutation defaults [0; 3 / 2; 2] [2; 0; 3 / 2]).
  apply Permutation_sym.
  apply (Permutation_cons_app [0; 3 / 2] [] 2). apply Permutation_refl.
Defined.

Lemma heat_sum_zeros (t : R) (n : nat) : heat_sum t (np.zeros n) = INR n.
Proof.
  unfold heat_sum, np.zeros.
  induction n as [| n IH]; [reflexivity |].
  cbn [repeat map np.sum fold_right]. rewrite S_INR.
  unfold np.sum in IH. rewrite IH.
  replace (- t * 0) with 0 by lra. rewrite np_exp_0. lra.
Qed.

Lemma all_zero_zeros (l : list R) :
  Forall (fun x => x = 0) l -> l = np.zeros (length l).
Proof.
  unfold np.zeros. induction 1 as [| x l -> _ IH]; [reflexivity |].
  cbn [length repeat]. now rewrite <- IH.
Qed.

Lemma heat_kernel_trace_all_zero (self : NetLSD) (eivals : list R) :
  (0 <= scale_steps self)%Z -> eivals <> [] ->
  Forall (fun x => x = 0) eivals ->
  _calculate_heat_kernel_trace self eivals
  = Ok (repeat 1 (Z.to_nat (scale_steps self))).
Proof.
  intros Hsteps Hne Hzero. rewrite heat_kernel_trace_ok by exact Hsteps. f_equal.
  pose proof (length_pos_INR eivals Hne) as Hpos.
  assert (Hsum : forall t, heat_sum t eivals = INR (length eivals)).
  { intros t. rewrite (all_zero_zeros eivals Hzero).
    now rewrite heat_sum_zeros, length_zeros. }
  generalize (Z.to_nat (scale_steps self)) as m. intros m.
  generalize 0%nat as s.
  induction m as [| m IH]; intros s; [reflexivity |].
  cbn [seq map repeat]. rewrite IH, Hsum. f_equal.
  field. lra.
Qed.

(** A spectrum of [n >= 1] zeros, that of a graph without edges, gives
    the constant trace 1 at every time scale. *)
Theorem heat_kernel_trace_of_zeros (self : NetLSD) (n : nat) :
  (0 <= scale_steps self)%Z -> (1 <= n)%nat ->
  _calculate_heat_kernel_trace self (np.zeros n)
  = Ok (repeat 1 (Z.to_nat (scale_steps self))).
Proof.
  intros Hsteps Hn. apply heat_kernel_trace_all_zero; [exact Hsteps | |].
  - destruct n; [lia | discriminate].
  - unfold np.zeros. clear Hn. induction n; simpl; constructor; auto.
Qed.

Lemma heat_kernel_trace_of_zeros_witness :
  _calculate_heat_kernel_trace defaults (np.zeros 2)
  = Ok (repeat 1 (Z.to_nat (scale_steps defaults))).
Proof.
  apply (heat_kernel_trace_of_zeros defaults 2).
  - simpl. lia.
  - lia.
Defined.

Lemma timescale_antimono (self : NetLSD) (i j : nat) :
  scale_max self <= scale_min self ->
  (i < j < Z.to_nat (scale_steps self))%nat ->
  timescale self j <= timescale self i.
Proof.
  intros Hscale [Hij Hj]. unfold timescale.
  apply Rle_Rpower; [lra |].
  apply Rplus_le_compat_l.
  assert (Hsteps : 1 < IZR (scale_steps self)) by (apply IZR_lt; lia).
  assert (Hinv : 0 < / (IZR (scale_steps self) - 1))
    by (apply Rinv_0_lt_compat; lra).
  assert (Hidx : INR i <= INR j) by (apply le_INR; lia).
  assert (Hstep : (scale_max self - scale_min self)
                  / (IZR (scale_steps self) - 1) <= 0).
  { unfold Rdiv. nra. }
  nra.
Qed.

(** Nothing orders the grid: with [scale_max <= scale_min] the time
    scales descend and the trace of a non-negative spectrum is
    non-decreasing along the index. *)
Theorem heat_kernel_trace_non_decreasing_reversed_grid
  (self : NetLSD) (eivals : list R) :
  scale_max self <= scale_min self ->
  (0 <= scale_steps self)%Z ->
  eivals <> [] ->
  Forall (fun ev => 0 <= ev) eivals ->
  exists trace,
    _calculate_heat_kernel_trace self eivals = Ok trace /\
    forall i j, (i < j < length trace)%nat -> nth i trace 0 <= nth j trace 0.
Proof.
  intros Hscale Hsteps Hne Hev.
  eexists. split; [apply heat_kernel_trace_ok, Hsteps |].
  intros i j. rewrite length_map, length_seq. intros Hij.
  rewrite !nth_map_seq by lia.
  apply Rmult_le_compat_r.
  - apply Rlt_le, Rinv_0_lt_compat, length_pos_INR, Hne.
  - apply heat_sum_antitone; [apply timescale_antimono; assumption | exact Hev].
Qed.

Lemma heat_kernel_trace_non_decreasing_reversed_grid_witness :
  exists trace,
    _calculate_heat_kernel_trace
      {| scale_min := 2; scale_max := -2; scale_steps := 250;
         approximations := 50; _embedding := None |} [0; 3 / 2] = Ok trace /\
    forall i j, (i < j < length trace)%nat -> nth i trace 0 <= nth j trace 0.
Proof.
  apply (heat_kernel_trace_non_decreasing_reversed_grid
           {| scale_min := 2; scale_max := -2; scale_steps := 250;
              approximations := 50; _embedding := None |} [0; 3 / 2]).
  - simpl. lra.
  - simpl. lia.
  - discriminate.
  - repeat constructor; lra.
Defined.

(** ** The pipeline and self-loops *)

Lemma filter_idempotent {A : Type} (f : A -> bool) (l : list A) :
  filter f (filter f l) = filter f l.
Proof.
  induction l as [| a l IH]; [reflexivity |]. simpl.
  destruct (f a) eqn:Hf; simpl; [rewrite Hf; f_equal |]; exact IH.
Qed.

Lemma remove_selfloops_ext (g1 g2 : Graph) :
  number_of_nodes g1 = number_of_nodes g2 ->
  filter (fun e => negb (nx.is_selfloop e)) (edges g1)
  = filter (fun e => negb (nx.is_selfloop e)) (edges g2) ->
  nx.remove_edges_from g1 (nx.selfloop_edges g1)
  = nx.remove_edges_from g2 (nx.selfloop_edges g2).
Proof.
  intros Hn He.
  pose proof (remove_selfloops_edges g1) as H1.
  pose proof (remove_selfloops_edges g2) as H2.
  unfold nx.remove_edges_from in *. cbn [edges] in H1, H2.
  rewrite H1, H2, Hn, He. reflexivity.
Qed.

Lemma remove_selfloops_idempotent (g : Graph) :
  nx.remove_edges_from (nx.remove_edges_from g (nx.selfloop_edges g))
    (nx.selfloop_edges (nx.remove_edges_from g (nx.selfloop_edges g)))
  = nx.remove_edges_from g (nx.selfloop_edges g).
Proof.
  apply remove_selfloops_ext; [reflexivity |].
  rewrite remove_selfloops_edges. apply filter_idempotent.
Qed.

Lemma calculate_netlsd_fst (eigsh : Eigsh) (self : NetLSD) (g : Graph) :
  fst (_calculate_netlsd eigsh self g)
  = nx.remove_edges_from g (nx.selfloop_edges g).
Proof. reflexivity. Qed.

(** The pipeline sees a graph only through its node count and its
    edges that are not self-loops: two graphs that agree on both are
    left as the same graph and get the same result. *)
Theorem calculate_netlsd_ignores_selfloops
  (eigsh : Eigsh) (self : NetLSD) (g1 g2 : Graph) :
  number_of_nodes g1 = number_of_nodes g2 ->
  filter (fun e => negb (nx.is_selfloop e)) (edges g1)
  = filter (fun e => negb (nx.is_selfloop e)) (edges g2) ->
  _calculate_netlsd eigsh self g1 = _calculate_netlsd eigsh self g2.
Proof.
  intros Hn He. unfold _calculate_netlsd.
  now rewrite (remove_selfloops_ext g1 g2 Hn He).
Qed.

Lemma calculate_netlsd_ignores_selfloops_witness :
  _calculate_netlsd (table_eigsh K3_spectrum) defaults K3_loop
  = _calculate_netlsd (table_eigsh K3_spectrum) defaults K3.
Proof.
  apply (calculate_netlsd_ignores_selfloops
           (table_eigsh K3_spectrum) defaults K3_loop K3);
    reflexivity.
Defined.

Lemma calculate_netlsd_again (eigsh : Eigsh) (self : NetLSD) (g : Graph) :
  _calculate_netlsd eigsh self (nx.remove_edges_from g (nx.selfloop_edges g))
  = _calculate_netlsd eigsh self g.
Proof.
  unfold _calculate_netlsd. now rewrite remove_selfloops_idempotent.
Qed.

(** ** Normalisation in the approximate branch *)




(** ** Fitting, graph by graph *)

(** What the comprehension of [fit] yields: every graph is left as its
    own pipeline leaves it, and the rows are the results of the graphs,
    in their order. *)
Lemma fit_rows_ok
  (eigsh : Eigsh) (self : NetLSD) (graphs graphs' : list Graph)
  (rows : list (list R)) :
  fit_rows eigsh self graphs = (graphs', Ok rows) ->
  graphs' = map (fun g => fst (_calculate_netlsd eigsh self g)) graphs /\
  Forall2 (fun g row => snd (_calculate_netlsd eigsh self g) = Ok row)
    graphs rows.
Proof.
  revert graphs' rows.
  induction graphs as [| g rest IH]; intros graphs' rows H.
  - simpl in H. injection H as <- <-. split; [reflexivity | constructor].
  - cbn [fit_rows] in H.
    destruct (_calculate_netlsd eigsh self g) as [g1 [row | e]] eqn:Hrow;
      [| discriminate H].
    destruct (fit_rows eigsh self rest) as [rest' [rows' | e]] eqn:Hrest;
      [| discriminate H].
    cbn [bind] in H. injection H as <- <-.
    destruct (IH rest' rows' eq_refl) as [-> Hall].
    split; [cbn [map]; now rewrite Hrow |].
    constructor; [now rewrite Hrow | exact Hall].
Qed.

Lemma fit_rows_raise
  (eigsh : Eigsh) (self : NetLSD) (graphs graphs' : list Graph) (e : exn) :
  fit_rows eigsh self graphs = (graphs', Raise e) ->
  exists pre graph post,
    graphs = pre ++ graph :: post /\
    Forall (fun g => exists row, snd (_calculate_netlsd eigsh self g) = Ok row)
      pre /\
    snd (_calculate_netlsd eigsh self graph) = Raise e /\
    firstn (S (length pre)) graphs' =
      map (fun g => fst (_calculate_netlsd eigsh self g)) (pre ++ [graph]).
Proof.
  revert graphs'.
  induction graphs as [| g rest IH]; intros graphs' H.
  - discriminate H.
  - cbn [fit_rows] in H.
    destruct (_calculate_netlsd eigsh self g) as [g1 [row | e1]] eqn:Hrow.
    + destruct (fit_rows eigsh self rest) as [rest' [rows' | e2]] eqn:Hrest;
        [discriminate H |].
      cbn [bind] in H. injection H as <- <-.
      destruct (IH rest' eq_refl) as [pre [graph [post [-> [Hpre [Hg Hleft]]]]]].
      exists (g :: pre), graph, post. repeat split.
      * constructor; [| exact Hpre]. exists row. now rewrite Hrow.
      * exact Hg.
      * cbn [length app map].
        change (firstn (S (S (length pre))) (g1 :: rest'))
          with (g1 :: firstn (S (length pre)) rest').
        rewrite Hleft, Hrow. reflexivity.
    + injection H as <- <-.
      exists [], g, rest. repeat split.
      * constructor.
      * now rewrite Hrow.
      * cbn [length firstn app map]. now rewrite Hrow.
Qed.

(** After a [fit] that ran to its end, row [i] of the matrix that
    [get_embedding] returns is the result of the pipeline on graph [i]
    alone, and graph [i] is left as that pipeline leaves it. *)
Theorem fit_rows_follow_graphs
  (eigsh : Eigsh) (self self' : NetLSD) (graphs graphs' : list Graph) :
  fit eigsh self graphs = (graphs', Ok self') ->
  exists rows,
    get_embedding self' = Ok rows /\
    Forall2 (fun g row => snd (_calculate_netlsd eigsh self g) = Ok row)
      graphs rows /\
    graphs' = map (fun g => fst (_calculate_netlsd eigsh self g)) graphs.
Proof.
  unfold fit. intros H.
  destruct (fit_rows eigsh self graphs) as [gs [rows | e]] eqn:Hrows;
    [| discriminate H].
  cbn [bind] in H. injection H as <- <-.
  destruct (fit_rows_ok _ _ _ _ _ Hrows) as [Hgs Hall].
  exists rows. repeat split; assumption.
Qed.

Lemma fit_rows_follow_graphs_witness :
  exists rows,
    get_embedding
      {| scale_min := 0; scale_max := 0; scale_steps := 1;
         approximations := 50;
         _embedding := Some [[(exp 0 + exp (- (3 / 2))) / 2];
                             [(exp 0 + exp (- (3 / 2))) / 2]] |} = Ok rows /\
    Forall2
      (fun g row =>
         snd (_calculate_netlsd (table_eigsh K3_spectrum) unit_grid g) = Ok row)
      [K3; K3_loop] rows /\
    [K3; K3] =
      map (fun g => fst (_calculate_netlsd (table_eigsh K3_spectrum) unit_grid g))
        [K3; K3_loop].
Proof.
  apply (fit_rows_follow_graphs (table_eigsh K3_spectrum) unit_grid _
           [K3; K3_loop] [K3; K3]).
  exact fit_K3_twice.
Defined.

(** When [fit] raises, it is the pipeline of one graph that raised: the
    graphs before it were processed, and they and that graph are left
    without their self-loops. *)
Theorem fit_stops_at_first_failure
  (eigsh : Eigsh) (self : NetLSD) (graphs graphs' : list Graph) (e : exn) :
  fit eigsh self graphs = (graphs', Raise e) ->
  exists pre graph post,
    graphs = pre ++ graph :: post /\
    Forall (fun g => exists row, snd (_calculate_netlsd eigsh self g) = Ok row)
      pre /\
    snd (_calculate_netlsd eigsh self graph) = Raise e /\
    firstn (S (length pre)) graphs' =
      map (fun g => fst (_calculate_netlsd eigsh self g)) (pre ++ [graph]).
Proof.
  unfold fit. intros H.
  destruct (fit_rows eigsh self graphs) as [gs [rows | e1]] eqn:Hrows;
    [discriminate H |].
  cbn [bind] in H. injection H as <- <-.
  apply (fit_rows_raise _ _ _ _ _ Hrows).
Qed.

Lemma fit_negative_steps :
  fit (table_eigsh K3_spectrum) negative_steps [K3_loop; K3_loop] =
    ([K3; K3_loop],
     Raise (ValueError "Number of samples must be non-negative.")).
Proof. reflexivity. Qed.

Lemma fit_stops_at_first_failure_witness :
  exists pre graph post,
    [K3_loop; K3_loop] = pre ++ graph :: post /\
    Forall
      (fun g => exists row,
         snd (_calculate_netlsd (table_eigsh K3_spectrum) negative_steps g)
         = Ok row) pre /\
    snd (_calculate_netlsd (table_eigsh K3_spectrum) negative_steps graph)
      = Raise (ValueError "Number of samples must be non-negative.") /\
    firstn (S (length pre)) [K3; K3_loop] =
      map (fun g =>
             fst (_calculate_netlsd (table_eigsh K3_spectrum) negative_steps g))
        (pre ++ [graph]).
Proof.
  apply (fit_stops_at_first_failure (table_eigsh K3_spectrum) negative_steps
           [K3_loop; K3_loop] [K3; K3_loop]).
  exact fit_negative_steps.
Defined.

(** A negative [scale_steps] makes every pipeline raise, so [fit]
    raises on every sequence that holds a graph. *)
Lemma calculate_netlsd_negative_steps
  (eigsh : Eigsh) (self : NetLSD) (g : Graph) :
  (scale_steps self < 0)%Z ->
  exists e, snd (_calculate_netlsd eigsh self g) = Raise e.
Proof.
  intros Hsteps. unfold _calculate_netlsd. cbn [snd].
  destruct (nxla.normalized_laplacian_matrix _) as [mat | e];
    [| exists e; reflexivity].
  cbn [bind].
  destruct (_calculate_eigenvalues eigsh self mat) as [ev | e];
    [| exists e; reflexivity].
  cbn [bind]. apply heat_kernel_trace_raises, Hsteps.
Qed.

(** A negative [scale_steps], accepted at construction, makes [fit]
    raise on every sequence that holds at least one graph. *)
Theorem fit_raises_on_negative_scale_steps
  (eigsh : Eigsh) (self : NetLSD) (graphs : list Graph) :
  (scale_steps self < 0)%Z ->
  graphs <> [] ->
  exists e, snd (fit eigsh self graphs) = Raise e.
Proof.
  intros Hsteps Hne.
  destruct graphs as [| g rest]; [contradiction |].
  destruct (calculate_netlsd_negative_steps eigsh self g Hsteps) as [e He].
  unfold fit. cbn [fit_rows].
  destruct (_calculate_netlsd eigsh self g) as [g1 r].
  cbn [snd] in He. subst r. cbn [snd bind]. exists e. reflexivity.
Qed.

Lemma fit_raises_on_negative_scale_steps_witness :
  exists e,
    snd (fit (table_eigsh K3_spectrum) negative_steps [K3_loop; K3_loop])
    = Raise e.
Proof.
  apply (fit_raises_on_negative_scale_steps
           (table_eigsh K3_spectrum) negative_steps [K3_loop; K3_loop]).
  - simpl. lia.
  - discriminate.
Defined.

(** ** Fitting again *)

(** The pipeline reads the four configuration values of the estimator
    and nothing else. *)
Lemma fit_rows_configuration
  (eigsh : Eigsh) (s1 s2 : NetLSD) (graphs : list Graph) :
  scale_min s1 = scale_min s2 ->
  scale_max s1 = scale_max s2 ->
  scale_steps s1 = scale_steps s2 ->
  approximations s1 = approximations s2 ->
  fit_rows eigsh s1 graphs = fit_rows eigsh s2 graphs.
Proof.
  intros Hmin Hmax Hsteps Hk.
  assert (Hone : forall g,
             _calculate_netlsd eigsh s1 g = _calculate_netlsd eigsh s2 g).
  { intros g.
    unfold _calculate_netlsd, _calculate_eigenvalues,
      _calculate_heat_kernel_trace.
    now rewrite Hmin, Hmax, Hsteps, Hk. }
  induction graphs as [| g rest IH]; [reflexivity |].
  cbn [fit_rows]. now rewrite Hone, IH.
Qed.

Lemma fit_configuration
  (eigsh : Eigsh) (s1 s2 : NetLSD) (graphs : list Graph) :
  scale_min s1 = scale_min s2 ->
  scale_max s1 = scale_max s2 ->
  scale_steps s1 = scale_steps s2 ->
  approximations s1 = approximations s2 ->
  fit eigsh s1 graphs = fit eigsh s2 graphs.
Proof.
  intros Hmin Hmax Hsteps Hk. unfold fit.
  rewrite (fit_rows_configuration eigsh s1 s2 graphs Hmin Hmax Hsteps Hk).
  now rewrite Hmin, Hmax, Hsteps, Hk.
Qed.

Lemma fit_keeps_configuration
  (eigsh : Eigsh) (self self' : NetLSD) (graphs graphs' : list Graph) :
  fit eigsh self graphs = (graphs', Ok self') ->
  scale_min self' = scale_min self /\
  scale_max self' = scale_max self /\
  scale_steps self' = scale_steps self /\
  approximations self' = approximations self.
Proof.
  unfold fit. intros H.
  destruct (fit_rows eigsh self graphs) as [gs [rows | e]];
    [| discriminate H].
  cbn [bind] in H. injection H as _ <-. repeat split.
Qed.

(** A second [fit] starts afresh: on any sequence of graphs a fitted
    estimator gives what the estimator gave before it was fitted, so
    nothing of the earlier embedding is kept or appended to. *)
Theorem fit_replaces_embedding
  (eigsh : Eigsh) (self self' : NetLSD) (graphs graphs' more : list Graph) :
  fit eigsh self graphs = (graphs', Ok self') ->
  fit eigsh self' more = fit eigsh self more.
Proof.
  intros H.
  destruct (fit_keeps_configuration _ _ _ _ _ H) as [Hmin [Hmax [Hsteps Hk]]].
  apply fit_configuration; assumption.
Qed.

Lemma fit_replaces_embedding_witness :
  fit (table_eigsh K3_spectrum)
      {| scale_min := 0; scale_max := 0; scale_steps := 1;
         approximations := 50;
         _embedding := Some [[(exp 0 + exp (- (3 / 2))) / 2];
                             [(exp 0 + exp (- (3 / 2))) / 2]] |}
      [K3]
  = fit (table_eigsh K3_spectrum) unit_grid [K3].
Proof.
  apply (fit_replaces_embedding (table_eigsh K3_spectrum) unit_grid _
           [K3; K3_loop] [K3; K3] [K3]).
  exact fit_K3_twice.
Defined.

Lemma fit_rows_again
  (eigsh : Eigsh) (self : NetLSD) (graphs graphs' : list Graph)
  (rows : list (list R)) :
  fit_rows eigsh self graphs = (graphs', Ok rows) ->
  fit_rows eigsh self graphs' = (graphs', Ok rows).
Proof.
  revert graphs' rows.
  induction graphs as [| g rest IH]; intros graphs' rows H.
  - simpl in H. injection H as <- <-. reflexivity.
  - cbn [fit_rows] in H.
    destruct (_calculate_netlsd eigsh self g) as [g1 [row | e]] eqn:Hrow;
      [| discriminate H].
    destruct (fit_rows eigsh self rest) as [rest' [rows' | e]] eqn:Hrest;
      [| discriminate H].
    cbn [bind] in H. injection H as <- <-.
    assert (Hg1 : g1 = nx.remove_edges_from g (nx.selfloop_edges g)).
    { rewrite <- (calculate_netlsd_fst eigsh self g). now rewrite Hrow. }
    cbn [fit_rows]. rewrite Hg1, calculate_netlsd_again, Hrow.
    rewrite (IH rest' rows' eq_refl). cbn [bind]. now rewrite Hg1.
Qed.

(** Fitting is idempotent: a second [fit] on the graphs as the first
    one left them gives the same estimator and leaves these graphs as
    they are. *)
Theorem fit_twice
  (eigsh : Eigsh) (self self' : NetLSD) (graphs graphs' : list Graph) :
  fit eigsh self graphs = (graphs', Ok self') ->
  fit eigsh self' graphs' = (graphs', Ok self').
Proof.
  intros H.
  destruct (fit_keeps_configuration _ _ _ _ _ H) as [Hmin [Hmax [Hsteps Hk]]].
  rewrite (fit_configuration eigsh self' self graphs' Hmin Hmax Hsteps Hk).
  unfold fit in *.
  destruct (fit_rows eigsh self graphs) as [gs [rows | e]] eqn:Hrows;
    [| discriminate H].
  cbn [bind] in H. injection H as <- <-.
  rewrite (fit_rows_again _ _ _ _ _ Hrows). reflexivity.
Qed.

Lemma fit_twice_witness :
  fit (table_eigsh K3_spectrum)
      {| scale_min := 0; scale_max := 0; scale_steps := 1;
         approximations := 50;
         _embedding := Some [[(exp 0 + exp (- (3 / 2))) / 2];
                             [(exp 0 + exp (- (3 / 2))) / 2]] |}
      [K3; K3]
  = ([K3; K3],
     Ok {| scale_min := 0; scale_max := 0; scale_steps := 1;
           approximations := 50;
           _embedding := Some [[(exp 0 + exp (- (3 / 2))) / 2];
                               [(exp 0 + exp (- (3 / 2))) / 2]] |}).
Proof.
  apply (fit_twice (table_eigsh K3_spectrum) unit_grid _ [K3; K3_loop] [K3; K3]).
  exact fit_K3_twice.
Defined.
